(** * The RISC-V trace decoder of [decoder-algorithm-public.c]

    A shallow embedding of the reference trace-decoder algorithm (UltraSoC,
    2019) together with the properties its specification states about it.

    The C code works on one mutable [te_decoder_state_t] through a pointer,
    calls two host functions ([te_get_instruction], [te_advance_decoded_pc])
    and the RISC-V disassembler, and leaves through [exit] or [assert] when
    something is wrong.  The embedding is a state-and-failure monad over the
    decoder state; the host's view of the retirements is kept as a list in
    that state. *)

From stdpp Require Import base numbers list strings.
From Stdlib Require Import ZArith Lia ZifyBool.

Local Open Scope Z_scope.

(** ** Machine integers *)

Definition wrap32 (x : Z) : Z := x mod 2 ^ 32.
Definition wrap64 (x : Z) : Z := x mod 2 ^ 64.

(** Modelled from the spec: [te_address_t] is declared in the header, which
    is not part of the sources; the code prints addresses with [%lx], and the
    spec gives no other width, so addresses are 64-bit unsigned integers. *)
Definition address_bits : Z := 64.

(** [MSB(x)] for an [x] of type [te_address_t]. *)
Definition MSB (x : Z) : bool := Z.testbit x (address_bits - 1).

Definition SENTINEL_BAD_ADDRESS : Z := 0xbadadd.

(** ** Decoded instructions *)

(** The members of the disassembler's opcode enumeration that the decoder
    names; [rv_op_other] stands for each of the remaining ones. *)
Inductive rv_op : Set :=
  | rv_op_illegal
  | rv_op_lui | rv_op_auipc
  | rv_op_jal | rv_op_jalr
  | rv_op_beq | rv_op_bne | rv_op_blt | rv_op_bge | rv_op_bltu | rv_op_bgeu
  | rv_op_uret | rv_op_sret | rv_op_mret | rv_op_dret
  | rv_op_c_jal | rv_op_c_lui | rv_op_c_j | rv_op_c_beqz | rv_op_c_bnez
  | rv_op_c_jr | rv_op_c_jalr
  | rv_op_other (n : Z).

#[global] Instance rv_op_eq_dec : EqDecision rv_op.
Proof. solve_decision. Defined.

Definition op_eqb (a b : rv_op) : bool := bool_decide (a = b).

(** The fields of the disassembler's [rv_decode] that the decoder reads. *)
Module rv.
Record decode : Set := mk {
  pc : Z;       (* uint64_t *)
  op : rv_op;
  rd : Z;
  rs1 : Z;
  imm : Z       (* int32_t, sign-extended when added to an address *)
}.
End rv.

(** [te_decoded_instruction_t]; the text of the disassembly line is left
    out, it is only printed. *)
Module insn.
Record te_decoded_instruction_t : Set := mk {
  decode : rv.decode;
  length : Z
}.
End insn.
Abbreviation te_decoded_instruction_t := insn.te_decoded_instruction_t.

(** [{ .decode.pc = SENTINEL_BAD_ADDRESS }]: every other member is zero. *)
Definition sentinel_instr : te_decoded_instruction_t :=
  insn.mk (rv.mk SENTINEL_BAD_ADDRESS rv_op_illegal 0 0 0) 0.

(** An all-zero record, as [memset] leaves the decoded cache. *)
Definition zeroed_instr : te_decoded_instruction_t :=
  insn.mk (rv.mk 0 rv_op_illegal 0 0 0) 0.

(** ** Packets and discovery parameters *)

Record discovery_response_t : Set := {
  call_counter_width : Z;   (* 3 bits *)
  iaddress_lsb : Z          (* 2 bits *)
}.

(** Modelled from the spec: the qualification status of a support packet
    (the enumeration is declared in the header). *)
Inductive qual_status_t : Set :=
  | QUAL_STATUS_NO_CHANGE
  | QUAL_STATUS_ENDED_REP
  | QUAL_STATUS_TRACE_LOST
  | QUAL_STATUS_ENDED_NTR.

#[global] Instance qual_status_eq_dec : EqDecision qual_status_t.
Proof. solve_decision. Defined.

(** [te_support_t]: the type of the file-level constant [te_support] and of
    the packets given to [te_process_te_support]. *)
Record te_support_t : Set := {
  support_type : Z;
  qual_status : qual_status_t;
  full_address : bool;
  implicit_return : bool
}.

(** Modelled from the spec: the logical fields of a [te_inst] packet (the
    header that lays them out is not part of the sources).  [branch] and
    [updiscon] are single bits, [branch_map] has up to 31 bits. *)
Module te_inst.
Record te_inst_t : Set := mk {
  format : Z;
  subformat : Z;
  address : Z;
  branch : bool;
  branches : Z;
  branch_map : Z;
  updiscon : bool
}.
End te_inst.
Abbreviation te_inst_t := te_inst.te_inst_t.

(** ** The decoder state *)

(** One call of the host's [te_advance_decoded_pc (user_data, old_pc, new_pc,
    instr)]. *)
Record retirement : Set := {
  old_pc : Z;
  new_pc : Z;
  new_instr : te_decoded_instruction_t
}.

(** [te_decoder_state_t].  [user_data] and [isa] are opaque to the decoder
    and only handed back to the host functions, which are variables of the
    development below; [retired] is not a member of the C structure, it
    records the calls of [te_advance_decoded_pc] in order. *)
Record te_decoder_state_t : Type := mk_state {
  pc : Z;
  last_pc : Z;
  address : Z;
  branches : Z;
  branch_map : Z;             (* 32 bits *)
  stop_at_last_branch : bool;
  inferred_address : bool;
  start_of_trace : bool;
  call_counter : Z;
  return_stack : list Z;      (* TE_MAX_CALL_DEPTH elements *)
  instruction_count : Z;
  decoded_cache : Z -> te_decoded_instruction_t;   (* by slot number *)
  num_gets : Z;
  num_same : Z;
  num_hits : Z;
  retired : list retirement
}.

Definition with_pc v d :=
  mk_state v (last_pc d) (address d) (branches d) (branch_map d)
    (stop_at_last_branch d) (inferred_address d) (start_of_trace d)
    (call_counter d) (return_stack d) (instruction_count d) (decoded_cache d)
    (num_gets d) (num_same d) (num_hits d) (retired d).
Definition with_last_pc v d :=
  mk_state (pc d) v (address d) (branches d) (branch_map d)
    (stop_at_last_branch d) (inferred_address d) (start_of_trace d)
    (call_counter d) (return_stack d) (instruction_count d) (decoded_cache d)
    (num_gets d) (num_same d) (num_hits d) (retired d).
Definition with_address v d :=
  mk_state (pc d) (last_pc d) v (branches d) (branch_map d)
    (stop_at_last_branch d) (inferred_address d) (start_of_trace d)
    (call_counter d) (return_stack d) (instruction_count d) (decoded_cache d)
    (num_gets d) (num_same d) (num_hits d) (retired d).
Definition with_branches v d :=
  mk_state (pc d) (last_pc d) (address d) v (branch_map d)
    (stop_at_last_branch d) (inferred_address d) (start_of_trace d)
    (call_counter d) (return_stack d) (instruction_count d) (decoded_cache d)
    (num_gets d) (num_same d) (num_hits d) (retired d).
Definition with_branch_map v d :=
  mk_state (pc d) (last_pc d) (address d) (branches d) v
    (stop_at_last_branch d) (inferred_address d) (start_of_trace d)
    (call_counter d) (return_stack d) (instruction_count d) (decoded_cache d)
    (num_gets d) (num_same d) (num_hits d) (retired d).
Definition with_stop_at_last_branch v d :=
  mk_state (pc d) (last_pc d) (address d) (branches d) (branch_map d)
    v (inferred_address d) (start_of_trace d)
    (call_counter d) (return_stack d) (instruction_count d) (decoded_cache d)
    (num_gets d) (num_same d) (num_hits d) (retired d).
Definition with_inferred_address v d :=
  mk_state (pc d) (last_pc d) (address d) (branches d) (branch_map d)
    (stop_at_last_branch d) v (start_of_trace d)
    (call_counter d) (return_stack d) (instruction_count d) (decoded_cache d)
    (num_gets d) (num_same d) (num_hits d) (retired d).
Definition with_start_of_trace v d :=
  mk_state (pc d) (last_pc d) (address d) (branches d) (branch_map d)
    (stop_at_last_branch d) (inferred_address d) v
    (call_counter d) (return_stack d) (instruction_count d) (decoded_cache d)
    (num_gets d) (num_same d) (num_hits d) (retired d).
Definition with_call_counter v d :=
  mk_state (pc d) (last_pc d) (address d) (branches d) (branch_map d)
    (stop_at_last_branch d) (inferred_address d) (start_of_trace d)
    v (return_stack d) (instruction_count d) (decoded_cache d)
    (num_gets d) (num_same d) (num_hits d) (retired d).
Definition with_return_stack v d :=
  mk_state (pc d) (last_pc d) (address d) (branches d) (branch_map d)
    (stop_at_last_branch d) (inferred_address d) (start_of_trace d)
    (call_counter d) v (instruction_count d) (decoded_cache d)
    (num_gets d) (num_same d) (num_hits d) (retired d).
Definition with_instruction_count v d :=
  mk_state (pc d) (last_pc d) (address d) (branches d) (branch_map d)
    (stop_at_last_branch d) (inferred_address d) (start_of_trace d)
    (call_counter d) (return_stack d) v (decoded_cache d)
    (num_gets d) (num_same d) (num_hits d) (retired d).
Definition with_decoded_cache v d :=
  mk_state (pc d) (last_pc d) (address d) (branches d) (branch_map d)
    (stop_at_last_branch d) (inferred_address d) (start_of_trace d)
    (call_counter d) (return_stack d) (instruction_count d) v
    (num_gets d) (num_same d) (num_hits d) (retired d).
Definition with_num_gets v d :=
  mk_state (pc d) (last_pc d) (address d) (branches d) (branch_map d)
    (stop_at_last_branch d) (inferred_address d) (start_of_trace d)
    (call_counter d) (return_stack d) (instruction_count d) (decoded_cache d)
    v (num_same d) (num_hits d) (retired d).
Definition with_num_same v d :=
  mk_state (pc d) (last_pc d) (address d) (branches d) (branch_map d)
    (stop_at_last_branch d) (inferred_address d) (start_of_trace d)
    (call_counter d) (return_stack d) (instruction_count d) (decoded_cache d)
    (num_gets d) v (num_hits d) (retired d).
Definition with_num_hits v d :=
  mk_state (pc d) (last_pc d) (address d) (branches d) (branch_map d)
    (stop_at_last_branch d) (inferred_address d) (start_of_trace d)
    (call_counter d) (return_stack d) (instruction_count d) (decoded_cache d)
    (num_gets d) (num_same d) v (retired d).
Definition with_retired v d :=
  mk_state (pc d) (last_pc d) (address d) (branches d) (branch_map d)
    (stop_at_last_branch d) (inferred_address d) (start_of_trace d)
    (call_counter d) (return_stack d) (instruction_count d) (decoded_cache d)
    (num_gets d) (num_same d) (num_hits d) v.

(** ** Ways of not returning, and the monad of the decoder *)

Inductive failure : Set :=
  | exited (message : string)     (* unrecoverable_error: printf, exit(1) *)
  | assertion_failed              (* assert *)
  | undefined_behaviour           (* an access outside an array *)
  | out_of_fuel.                  (* the model's bound on a while(true) *)

Inductive result (A : Type) : Type :=
  | Ret (a : A)
  | Fail (f : failure).
Arguments Ret {A} a.
Arguments Fail {A} f.

Definition M (A : Type) : Type := te_decoder_state_t -> result (A * te_decoder_state_t).

Definition ret {A} (a : A) : M A := fun d => Ret (a, d).
Definition bind {A B} (m : M A) (k : A -> M B) : M B :=
  fun d => match m d with
           | Ret (a, d') => k a d'
           | Fail f => Fail f
           end.
Definition fail {A} (f : failure) : M A := fun _ => Fail f.
Definition get : M te_decoder_state_t := fun d => Ret (d, d).
Definition gets {A} (f : te_decoder_state_t -> A) : M A := fun d => Ret (f d, d).
Definition modify (f : te_decoder_state_t -> te_decoder_state_t) : M unit :=
  fun d => Ret (tt, f d).
Definition assert (b : bool) : M unit :=
  if b then ret tt else fail assertion_failed.
Definition when (b : bool) (m : M unit) : M unit :=
  if b then m else ret tt.

Notation "'let*' x := m 'in' k" := (bind m (fun x => k))
  (at level 10, x binder, m at level 100, k at level 200).
Notation "m ;; k" := (bind m (fun _ => k))
  (at level 100, k at level 200, right associativity).

(** [unrecoverable_error (instr, message)]: never returns to its caller. *)
Definition unrecoverable_error {A} (instr : option te_decoded_instruction_t)
    (message : string) : M A :=
  fail (exited message).

(** ** What the decoder is compiled and linked against *)

(** The header and the host: the slot function of the decoded cache
    ([TE_SLOT_NUMBER]) and the bound of the return stack array
    ([TE_MAX_CALL_DEPTH]), both macros of the header; the host's instruction
    memory ([te_get_instruction], giving the raw instruction and its length,
    with [user_data] fixed) and the disassembler's decoding of a raw
    instruction (with [isa] fixed).  The source fixes [discovery_response]
    and [te_support] as file-level constants; the development is parametric
    in them, and [src_discovery_response] and [src_te_support] below are the
    values of the source. *)
Module host.
Record t : Type := mk {
  TE_SLOT_NUMBER : Z -> Z;
  TE_MAX_CALL_DEPTH : Z;
  te_get_instruction : Z -> Z * Z;
  rv_disasm : Z -> rv.decode;
  discovery_response : discovery_response_t;
  te_support : te_support_t
}.
End host.

(** ** The constants of the source, and a small program *)

(** [discovery_response] and [te_support] as the source initialises them. *)
Definition src_discovery_response : discovery_response_t :=
  {| call_counter_width := 7; iaddress_lsb := 1 |}.

Definition src_te_support : te_support_t :=
  {| support_type := 0; qual_status := QUAL_STATUS_NO_CHANGE;
     full_address := false; implicit_return := false |}.

(** The same decoder with the return stack in use (the spec's
    [implicit_return] parameter set). *)
Definition implicit_return_te_support : te_support_t :=
  {| support_type := 0; qual_status := QUAL_STATUS_NO_CHANGE;
     full_address := false; implicit_return := true |}.

(** The host of the examples: a handful of RV32 instructions by their
    encodings, a memory that holds [nop] wherever nothing else is placed,
    a decoded cache of 256 slots and a return stack array of 512 entries. *)
Module demo.

Definition nop : Z := 0x00000013.            (* addi x0,x0,0 *)
Definition beq_8 : Z := 0x00000463.          (* beq x0,x0,+8 *)
Definition jal_x0_m8 : Z := 0xff9ff06f.      (* jal x0,-8 *)
Definition jal_ra_40 : Z := 0x040000ef.      (* jal x1,+0x40 *)
Definition ret_ : Z := 0x00008067.           (* jalr x0,0(x1) *)
Definition lui_t0_2 : Z := 0x000022b7.       (* lui x5,0x2 *)
Definition auipc_t0_1 : Z := 0x00001297.     (* auipc x5,0x1 *)
Definition jalr_x0_100_t0 : Z := 0x10028067. (* jalr x0,0x100(x5) *)

Definition rv_disasm (inst : Z) : rv.decode :=
  if inst =? nop then rv.mk 0 (rv_op_other 0) 0 0 0
  else if inst =? beq_8 then rv.mk 0 rv_op_beq 0 0 8
  else if inst =? jal_x0_m8 then rv.mk 0 rv_op_jal 0 0 (-8)
  else if inst =? jal_ra_40 then rv.mk 0 rv_op_jal 1 0 0x40
  else if inst =? ret_ then rv.mk 0 rv_op_jalr 0 1 0
  else if inst =? lui_t0_2 then rv.mk 0 rv_op_lui 5 0 0x2000
  else if inst =? auipc_t0_1 then rv.mk 0 rv_op_auipc 5 0 0x1000
  else if inst =? jalr_x0_100_t0 then rv.mk 0 rv_op_jalr 0 5 0x100
  else rv.mk 0 rv_op_illegal 0 0 0.

Definition te_get_instruction (address : Z) : Z * Z :=
  if address =? 0x1004 then (beq_8, 4)
  else if address =? 0x100c then (ret_, 4)
  else if address =? 0x2000 then (lui_t0_2, 4)
  else if address =? 0x2004 then (jalr_x0_100_t0, 4)
  else if address =? 0x2800 then (auipc_t0_1, 4)
  else if address =? 0x2804 then (jalr_x0_100_t0, 4)
  else if address =? 0x3000 then (beq_8, 4)
  else if address =? 0x3008 then (jal_x0_m8, 4)
  else if address =? 0x4000 then (jal_ra_40, 4)
  else if address =? 0x4044 then (ret_, 4)
  else (nop, 4).

Definition TE_SLOT_NUMBER (address : Z) : Z := Z.land (Z.shiftr address 1) 0xff.

Definition TE_MAX_CALL_DEPTH : Z := 512.

(** Packets. *)
Definition sync (address : Z) (branch : bool) : te_inst_t :=
  te_inst.mk 3 0 address branch 0 0 false.

Definition branch_packet (branches branch_map address : Z) : te_inst_t :=
  te_inst.mk 1 0 address false branches branch_map false.

Definition support (support_type : Z) (qual_status : qual_status_t) : te_support_t :=
  {| support_type := support_type; qual_status := qual_status;
     full_address := false; implicit_return := false |}.

(** The host of the examples, with the constants of the source, and the
    same with the return stack in use. *)
Definition host : host.t :=
  host.mk TE_SLOT_NUMBER TE_MAX_CALL_DEPTH te_get_instruction rv_disasm
    src_discovery_response src_te_support.

Definition host_implicit_return : host.t :=
  host.mk TE_SLOT_NUMBER TE_MAX_CALL_DEPTH te_get_instruction rv_disasm
    src_discovery_response implicit_return_te_support.

(** States: a decoder just opened, and a decoder in the middle of a trace
    with an empty return stack and nothing in its decoded cache yet. *)
Definition fresh : te_decoder_state_t :=
  mk_state SENTINEL_BAD_ADDRESS SENTINEL_BAD_ADDRESS SENTINEL_BAD_ADDRESS
    0 0 false false true 0 (replicate 512 0) 0 (fun _ => zeroed_instr) 0 0 0 [].

Definition walking (pc last_pc address branches branch_map : Z)
    (stop_at_last_branch inferred_address : bool) : te_decoder_state_t :=
  mk_state pc last_pc address branches branch_map
    stop_at_last_branch inferred_address false
    0 (replicate 512 0) 1 (fun _ => zeroed_instr) 0 0 0 [].

End demo.

(** ** The decoder *)

Section decoder.

(** The decoder is read against one host [h]; inside this section its
    members go by the names the source uses. *)
Variable h : host.t.

Local Abbreviation TE_SLOT_NUMBER := (host.TE_SLOT_NUMBER h).
Local Abbreviation TE_MAX_CALL_DEPTH := (host.TE_MAX_CALL_DEPTH h).
Local Abbreviation te_get_instruction := (host.te_get_instruction h).
Local Abbreviation rv_disasm := (host.rv_disasm h).
Local Abbreviation discovery_response := (host.discovery_response h).
Local Abbreviation te_support := (host.te_support h).

(** [disasm_inst_adv (&dec, ..., isa, pc, inst, false)]: the disassembler
    records the address it was given and decodes the raw instruction. *)
Definition disasm_inst_adv (pc inst : Z) : rv.decode :=
  let dec := rv_disasm inst in
  rv.mk pc (rv.op dec) (rv.rd dec) (rv.rs1 dec) (rv.imm dec).

Definition get_instr (address : Z) (instr : te_decoded_instruction_t)
    : M te_decoded_instruction_t :=
  let slot := TE_SLOT_NUMBER address in
  assert (negb (SENTINEL_BAD_ADDRESS =? address)) ;;
  modify (fun d => with_num_gets (wrap64 (num_gets d + 1)) d) ;;
  if rv.pc (insn.decode instr) =? address then
    modify (fun d => with_num_same (wrap64 (num_same d + 1)) d) ;;
    ret instr
  else
    let* d := get in
    if rv.pc (insn.decode (decoded_cache d slot)) =? address then
      modify (fun d => with_num_hits (wrap64 (num_hits d + 1)) d) ;;
      ret (decoded_cache d slot)
    else
      let '(instruction, length) := te_get_instruction address in
      assert ((4 =? length) || (2 =? length)) ;;
      let instr := insn.mk (disasm_inst_adv address instruction) length in
      modify (fun d => with_decoded_cache
                (fun s => if s =? slot then instr else decoded_cache d s) d) ;;
      ret instr.

Definition instruction_size (instr : te_decoded_instruction_t) : Z :=
  insn.length instr.

Definition te_advance_decoded_pc (old_pc new_pc : Z)
    (instr : te_decoded_instruction_t) : M unit :=
  modify (fun d => with_retired (retired d ++ [Build_retirement old_pc new_pc instr]) d).

Definition disseminate_pc : M unit :=
  let* d := get in
  assert (negb (SENTINEL_BAD_ADDRESS =? pc d)) ;;
  assert (negb (last_pc d =? pc d)) ;;
  (if negb (instruction_count d =? 0)
   then assert (negb (SENTINEL_BAD_ADDRESS =? last_pc d))
   else assert (SENTINEL_BAD_ADDRESS =? last_pc d)) ;;
  let* instr := get_instr (pc d) sentinel_instr in
  te_advance_decoded_pc (last_pc d) (pc d) instr ;;
  modify (fun d => with_instruction_count (wrap64 (instruction_count d + 1)) d).

(** *** Classification of instructions *)

Definition is_branch (instr : te_decoded_instruction_t) : bool :=
  let op := rv.op (insn.decode instr) in
  op_eqb op rv_op_beq || op_eqb op rv_op_bne || op_eqb op rv_op_blt ||
  op_eqb op rv_op_bge || op_eqb op rv_op_bltu || op_eqb op rv_op_bgeu ||
  op_eqb op rv_op_c_beqz || op_eqb op rv_op_c_bnez.

Definition is_taken_branch (instr : te_decoded_instruction_t) : M bool :=
  if negb (is_branch instr) then ret false
  else
    let* d := get in
    if 0 =? branches d then
      unrecoverable_error (Some instr)
        "cannot resolve branch (branch-map depleted)!"%string
    else
      let taken := negb (Z.testbit (branch_map d) 0) in
      modify (fun d => with_branches (branches d - 1) d) ;;
      modify (fun d => with_branch_map (Z.shiftr (branch_map d) 1) d) ;;
      ret taken.

Definition is_inferrable_jump (instr : te_decoded_instruction_t) : bool :=
  let dec := insn.decode instr in
  op_eqb (rv.op dec) rv_op_jal || op_eqb (rv.op dec) rv_op_c_jal ||
  op_eqb (rv.op dec) rv_op_c_j ||
  (op_eqb (rv.op dec) rv_op_jalr && (0 =? rv.rs1 dec)).

Definition is_uninferrable_jump (instr : te_decoded_instruction_t) : bool :=
  let dec := insn.decode instr in
  (op_eqb (rv.op dec) rv_op_jalr && negb (0 =? rv.rs1 dec)) ||
  op_eqb (rv.op dec) rv_op_c_jalr || op_eqb (rv.op dec) rv_op_c_jr.

Definition is_uninferrable_discon (instr : te_decoded_instruction_t) : bool :=
  let op := rv.op (insn.decode instr) in
  is_uninferrable_jump instr ||
  op_eqb op rv_op_uret || op_eqb op rv_op_sret ||
  op_eqb op rv_op_mret || op_eqb op rv_op_dret.

Definition is_sequential_jump (instr : te_decoded_instruction_t)
    (prev_addr : Z) : M bool :=
  if negb (is_uninferrable_jump instr) then ret false
  else
    let* prev_instr := get_instr prev_addr sentinel_instr in
    let prev_op := rv.op (insn.decode prev_instr) in
    if op_eqb prev_op rv_op_auipc || op_eqb prev_op rv_op_lui ||
       op_eqb prev_op rv_op_c_lui
    then ret (rv.rs1 (insn.decode instr) =? rv.rd (insn.decode prev_instr))
    else ret false.

Definition sequential_jump_target (addr prev_addr : Z) : M Z :=
  let* instr := get_instr addr sentinel_instr in
  let* prev_instr := get_instr prev_addr sentinel_instr in
  let target := 0 in
  let target :=
    if op_eqb (rv.op (insn.decode prev_instr)) rv_op_auipc
    then prev_addr else target in
  let target := wrap64 (target + rv.imm (insn.decode prev_instr)) in
  let target :=
    if op_eqb (rv.op (insn.decode instr)) rv_op_jalr
    then wrap64 (target + rv.imm (insn.decode instr)) else target in
  ret target.

Definition is_call (instr : te_decoded_instruction_t) : bool :=
  let dec := insn.decode instr in
  (op_eqb (rv.op dec) rv_op_jalr && (1 =? rv.rd dec)) ||
  op_eqb (rv.op dec) rv_op_c_jalr ||
  (op_eqb (rv.op dec) rv_op_jal && (1 =? rv.rd dec)) ||
  op_eqb (rv.op dec) rv_op_c_jal.

Definition is_implicit_return (decoder : te_decoder_state_t)
    (instr : te_decoded_instruction_t) : bool :=
  let dec := insn.decode instr in
  if negb (implicit_return te_support) then false
  else if (op_eqb (rv.op dec) rv_op_jalr && (1 =? rv.rs1 dec) && (0 =? rv.rd dec)) ||
          (op_eqb (rv.op dec) rv_op_c_jr && (1 =? rv.rs1 dec))
  then 0 <? call_counter decoder
  else false.

(** *** The return stack *)

(** [decoder->return_stack[i]], read and written; an index outside the
    array is undefined behaviour. *)
Definition read_return_stack (i : Z) : M Z :=
  let* d := get in
  if 0 <=? i then
    match return_stack d !! Z.to_nat i with
    | Some v => ret v
    | None => fail undefined_behaviour
    end
  else fail undefined_behaviour.

Definition write_return_stack (i v : Z) : M unit :=
  let* d := get in
  if (0 <=? i) && (i <? Z.of_nat (length (return_stack d))) then
    modify (with_return_stack (<[Z.to_nat i := v]> (return_stack d)))
  else fail undefined_behaviour.

(** [for (...; i < decoder->call_counter; i++)
       decoder->return_stack[i] = decoder->return_stack[i+1];]
    with [n] iterations left. *)
Fixpoint shift_return_stack (n : nat) (i : Z) : M unit :=
  match n with
  | O => ret tt
  | S n =>
      let* v := read_return_stack (i + 1) in
      write_return_stack i v ;;
      shift_return_stack n (i + 1)
  end.

Definition call_counter_max : Z :=
  wrap32 (Z.shiftl 1 (call_counter_width discovery_response + 2)).

Definition push_return_stack (address : Z) : M unit :=
  let link := address in
  let* d := get in
  assert (call_counter d <=? call_counter_max) ;;
  assert (call_counter_max <=? TE_MAX_CALL_DEPTH) ;;
  when (call_counter_max =? call_counter d)
    (modify (fun d => with_call_counter (call_counter d - 1) d) ;;
     let* d := get in
     shift_return_stack (Z.to_nat (call_counter d)) 0) ;;
  let* instr := get_instr address sentinel_instr in
  let link := wrap64 (link + instruction_size instr) in
  let* d := get in
  write_return_stack (call_counter d) link ;;
  modify (fun d => with_call_counter (call_counter d + 1) d).

(** [call_counter] is unsigned (it is compared with a [size_t]). *)
Definition pop_return_stack : M Z :=
  let* d := get in
  let* link := read_return_stack (call_counter d) in
  modify (fun d => with_call_counter (wrap64 (call_counter d - 1)) d) ;;
  ret link.

(** *** One step of the walk *)

Definition next_pc (address : Z) : M unit :=
  let* this_pc := gets pc in
  let* instr := get_instr this_pc sentinel_instr in
  (if is_inferrable_jump instr then
     modify (fun d => with_pc (wrap64 (pc d + rv.imm (insn.decode instr))) d)
   else
     let* last := gets last_pc in
     let* sequential := is_sequential_jump instr last in
     if sequential then
       let* d := get in
       let* target := sequential_jump_target (pc d) (last_pc d) in
       modify (with_pc target)
     else
       let* d := get in
       if is_implicit_return d instr then
         let* link := pop_return_stack in
         modify (with_pc link)
       else if is_uninferrable_discon instr then
         if stop_at_last_branch d then
           unrecoverable_error (Some instr)
             "unexpected uninferrable discontinuity"%string
         else modify (with_pc address)
       else
         let* taken := is_taken_branch instr in
         if taken then
           modify (fun d => with_pc (wrap64 (pc d + rv.imm (insn.decode instr))) d)
         else
           modify (fun d => with_pc (wrap64 (pc d + instruction_size instr)) d)) ;;
  when (is_call instr) (push_return_stack this_pc) ;;
  modify (with_last_pc this_pc) ;;
  disseminate_pc.

(** *** The walk to a reported address *)

(** [is_branch (get_instr (decoder, decoder->pc, &instr))]: the
    predicate, and [instr] as the call leaves it. *)
Definition is_branch_at_pc (instr : te_decoded_instruction_t)
    : M (bool * te_decoded_instruction_t) :=
  let* p := gets pc in
  let* instr := get_instr p instr in
  ret (is_branch instr, instr).

(** One turn of the [while (true)] of [follow_execution_path], with the
    function's locals [instr] and [last_instr]: [None] when the function
    returns, the locals when the loop goes round again. *)
Definition follow_execution_path_turn (address : Z) (te_inst : te_inst_t)
    (previous_address : Z) (instr last_instr : te_decoded_instruction_t)
    : M (option (te_decoded_instruction_t * te_decoded_instruction_t)) :=
  let* d := get in
  when (stop_at_last_branch d && (0 =? branches d))
    (unrecoverable_error (Some instr)
       "follow_execution_path() has stop_at_last_branch=true and branches=0"%string) ;;
  if inferred_address d then
    next_pc previous_address ;;
    let* p := gets pc in
    let* instr := get_instr p instr in
    let* d := get in
    when (pc d =? previous_address) (modify (with_inferred_address false)) ;;
    ret (Some (instr, last_instr))
  else
    next_pc address ;;
    let* p := gets pc in
    let* instr := get_instr p instr in
    let* d := get in
    let* '(final_branch, instr) :=
      (if 1 =? branches d then
         let* '(b, instr) := is_branch_at_pc instr in
         let* d := get in
         ret (b && stop_at_last_branch d, instr)
       else ret (false, instr)) in
    if final_branch then
      modify (with_stop_at_last_branch false) ;;
      ret None
    else
      let* d := get in
      let* '(after_discon, last_instr) :=
        (if pc d =? address then
           let* last_instr := get_instr (last_pc d) last_instr in
           ret (is_uninferrable_discon last_instr, last_instr)
         else ret (false, last_instr)) in
      if after_discon then
        let* d := get in
        let* '(b, instr) := is_branch_at_pc instr in
        when (branches d >? (if b then 1 else 0))
          (unrecoverable_error (Some instr) "unprocessed branches"%string) ;;
        ret None
      else
        let* d := get in
        let* '(ambiguous, instr) :=
          (if negb (3 =? te_inst.format te_inst) && (pc d =? address) &&
              bool_decide (te_inst.updiscon te_inst = MSB (te_inst.address te_inst))
           then
             let* '(b, instr) := is_branch_at_pc instr in
             ret (branches d =? (if b then 1 else 0), instr)
           else ret (false, instr)) in
        if ambiguous then
          modify (with_inferred_address true) ;;
          ret None
        else
          let* d := get in
          let* '(reached, instr) :=
            (if (3 =? te_inst.format te_inst) && (pc d =? address) then
               let* '(b, instr) := is_branch_at_pc instr in
               ret (branches d =? (if b then 1 else 0), instr)
             else ret (false, instr)) in
          if reached then ret None
          else ret (Some (instr, last_instr)).

(** The [while (true)], bounded by [fuel] turns. *)
Fixpoint follow_execution_path_loop (fuel : nat) (address : Z)
    (te_inst : te_inst_t) (previous_address : Z)
    (instr last_instr : te_decoded_instruction_t) : M unit :=
  match fuel with
  | O => fail out_of_fuel
  | S fuel =>
      let* r := follow_execution_path_turn address te_inst previous_address
                  instr last_instr in
      match r with
      | None => ret tt
      | Some (instr, last_instr) =>
          follow_execution_path_loop fuel address te_inst previous_address
            instr last_instr
      end
  end.

Definition follow_execution_path (fuel : nat) (address : Z)
    (te_inst : te_inst_t) : M unit :=
  let* d := get in
  let previous_address := pc d in
  assert (negb (stop_at_last_branch d) ||
          (1 =? branches d) || (2 =? branches d) ||
          (31 =? branches d) || (32 =? branches d)) ;;
  let* instr := get_instr (pc d) sentinel_instr in
  follow_execution_path_loop fuel address te_inst previous_address
    instr sentinel_instr.

(** *** Packets *)

(** [x << n] on 32-bit operands; a count of 32 or more is undefined. *)
Definition shl32 (x n : Z) : M Z :=
  if (0 <=? n) && (n <? 32) then ret (wrap32 (Z.shiftl x n))
  else fail undefined_behaviour.

(** [te_inst->address << discovery_response.iaddress_lsb]. *)
Definition shifted_address (te_inst : te_inst_t) : Z :=
  wrap64 (Z.shiftl (te_inst.address te_inst) (iaddress_lsb discovery_response)).

(** The body of [te_process_te_inst] for a format 3 packet, up to the
    choice between walking and synchronising. *)
Definition te_inst_format3_update (te_inst : te_inst_t) : M unit :=
  modify (with_inferred_address false) ;;
  modify (with_address (shifted_address te_inst)) ;;
  let* d := get in
  when ((1 =? te_inst.subformat te_inst) || start_of_trace d)
    (modify (with_branches 0) ;;
     modify (with_branch_map 0)) ;;
  let* d := get in
  let* instr := get_instr (address d) sentinel_instr in
  when (is_branch instr)
    (let* d := get in
     let* bit := shl32 (Z.b2z (te_inst.branch te_inst)) (branches d) in
     modify (fun d => with_branch_map (Z.lor (branch_map d) bit) d) ;;
     modify (fun d => with_branches (branches d + 1) d)).

(** The body of [te_process_te_inst] for a packet of another format, up
    to the call of [follow_execution_path]. *)
Definition te_inst_update (te_inst : te_inst_t) : M unit :=
  let* d := get in
  when (start_of_trace d)
    (unrecoverable_error None
       "Expecting trace to start with a format 3 message"%string) ;;
  when ((2 =? te_inst.format te_inst) || negb (0 =? te_inst.branches te_inst))
    (modify (with_stop_at_last_branch false) ;;
     if full_address te_support then
       modify (with_address (shifted_address te_inst))
     else
       modify (fun d => with_address (wrap64 (address d + shifted_address te_inst)) d)) ;;
  when (1 =? te_inst.format te_inst)
    (modify (with_stop_at_last_branch (te_inst.branches te_inst =? 0)) ;;
     let* d := get in
     assert (branches d <=? 1) ;;
     assert (((0 =? branches d) && (0 =? branch_map d)) ||
             ((1 =? branches d) && (0 =? Z.land (branch_map d) (wrap32 (Z.lnot 1))))) ;;
     let* map := shl32 (te_inst.branch_map te_inst) (branches d) in
     modify (fun d => with_branch_map (Z.lor (branch_map d) map) d) ;;
     if 0 =? te_inst.branches te_inst then
       modify (fun d => with_branches (branches d + 31) d)
     else
       modify (fun d => with_branches (branches d + te_inst.branches te_inst) d)).

Definition te_process_te_inst (fuel : nat) (te_inst : te_inst_t) : M unit :=
  if 3 =? te_inst.format te_inst then
    te_inst_format3_update te_inst ;;
    let* d := get in
    (if (0 =? te_inst.subformat te_inst) && negb (start_of_trace d) then
       follow_execution_path fuel (address d) te_inst
     else
       modify (fun d => with_last_pc (pc d) d) ;;
       modify (fun d => with_pc (address d) d) ;;
       disseminate_pc ;;
       modify (fun d => with_last_pc (pc d) d)) ;;
    modify (with_start_of_trace false) ;;
    modify (with_call_counter 0)
  else
    te_inst_update te_inst ;;
    let* d := get in
    follow_execution_path fuel (address d) te_inst.

(** The [while (true)] of [te_process_te_support], bounded by [fuel]. *)
Fixpoint te_support_loop (fuel : nat) (previous_address : Z) : M unit :=
  match fuel with
  | O => fail out_of_fuel
  | S fuel =>
      next_pc previous_address ;;
      let* d := get in
      if pc d =? previous_address then ret tt
      else te_support_loop fuel previous_address
  end.

(** The parameter of [te_process_te_support] hides the file-level
    [te_support]; it is [packet] here. *)
Definition te_process_te_support (fuel : nat) (packet : te_support_t) : M unit :=
  if 0 =? support_type packet then
    when (bool_decide (QUAL_STATUS_ENDED_NTR = qual_status packet) ||
          bool_decide (QUAL_STATUS_ENDED_REP = qual_status packet))
      (modify (with_start_of_trace true)) ;;
    let* d := get in
    if bool_decide (QUAL_STATUS_ENDED_NTR = qual_status packet) &&
       inferred_address d
    then
      let previous_address := pc d in
      modify (with_inferred_address false) ;;
      te_support_loop fuel previous_address
    else ret tt
  else ret tt.

(** [te_open_trace_decoder]: the state is zeroed, then the three addresses
    are set to the sentinel and [start_of_trace] to true. *)
Definition te_open_trace_decoder : te_decoder_state_t :=
  let zeroed :=
    mk_state 0 0 0 0 0 false false false 0
      (replicate (Z.to_nat TE_MAX_CALL_DEPTH) 0) 0
      (fun _ => zeroed_instr) 0 0 0 [] in
  with_start_of_trace true
    (with_address SENTINEL_BAD_ADDRESS
       (with_last_pc SENTINEL_BAD_ADDRESS
          (with_pc SENTINEL_BAD_ADDRESS zeroed))).

(** ** Vocabulary of the properties *)

(** The record that a miss of [get_instr] builds for [address]: the
    instruction at that address. *)
Definition insn_at (address : Z) : te_decoded_instruction_t :=
  insn.mk (disasm_inst_adv address (te_get_instruction address).1)
    (te_get_instruction address).2.

(** Addresses [get_instr] can be asked for: not the sentinel, holding an
    instruction of 2 or 4 bytes, and not address 0, which the zeroed
    decoded cache of a fresh decoder claims to hold. *)
Definition fetchable (address : Z) : bool :=
  negb (address =? 0) && negb (address =? SENTINEL_BAD_ADDRESS) &&
  ((4 =? (te_get_instruction address).2) || (2 =? (te_get_instruction address).2)).

(** A decoded record is coherent when it is the instruction at the address
    it carries, or carries no address (zero or the sentinel). *)
Definition coherent (i : te_decoded_instruction_t) : Prop :=
  rv.pc (insn.decode i) ≠ 0 ->
  rv.pc (insn.decode i) ≠ SENTINEL_BAD_ADDRESS ->
  i = insn_at (rv.pc (insn.decode i)).

Definition cache_ok (d : te_decoder_state_t) : Prop :=
  forall s, coherent (decoded_cache d s).

(** What [get_instr] may change: the decoded cache and its statistics. *)
Definition touch (c : Z -> te_decoded_instruction_t) (n1 n2 n3 : Z)
    (d : te_decoder_state_t) : te_decoder_state_t :=
  with_decoded_cache c (with_num_gets n1 (with_num_same n2 (with_num_hits n3 d))).

Definition same_core (d d' : te_decoder_state_t) : Prop :=
  exists c n1 n2 n3, d' = touch c n1 n2 n3 d.

(** A computation that, when it returns, has taken the state along [R]. *)
Definition preserves {A} (R : relation te_decoder_state_t) (m : M A) : Prop :=
  forall d a d', m d = Ret (a, d') -> R d d'.

(** The branch map holds [branches] bits and nothing above them. *)
Definition bmap_ok (d : te_decoder_state_t) : Prop :=
  0 <= branches d /\ 0 <= branch_map d < 2 ^ branches d.

(** Branch bits are only ever consumed. *)
Definition drains (d d' : te_decoder_state_t) : Prop :=
  branches d' <= branches d /\ (bmap_ok d -> bmap_ok d').

(** The links the return stack holds, oldest first. *)
Definition stack_contents (d : te_decoder_state_t) : list Z :=
  take (Z.to_nat (call_counter d)) (return_stack d).

(** The link of a call at [call_pc]: the address of the next instruction
    in memory. *)
Definition link_of (call_pc : Z) : Z :=
  wrap64 (call_pc + insn.length (insn_at call_pc)).

(** One push for each call of a list, in order. *)
Fixpoint push_all (calls : list Z) : M unit :=
  match calls with
  | [] => ret tt
  | call_pc :: calls => push_return_stack call_pc ;; push_all calls
  end.

(** What [push_return_stack] may change besides the cache: the return
    stack and its counter. *)
Definition same_but_stack (d d' : te_decoder_state_t) : Prop :=
  exists cc rs c n1 n2 n3,
    d' = with_call_counter cc (with_return_stack rs (touch c n1 n2 n3 d)).

(** The spec's sequentially-inferrable jump, on the jump and the
    instruction before it. *)
Definition sequentially_inferrable (instr prev : te_decoded_instruction_t) : bool :=
  is_uninferrable_jump instr &&
  (op_eqb (rv.op (insn.decode prev)) rv_op_auipc ||
   op_eqb (rv.op (insn.decode prev)) rv_op_lui ||
   op_eqb (rv.op (insn.decode prev)) rv_op_c_lui) &&
  (rv.rs1 (insn.decode instr) =? rv.rd (insn.decode prev)).

(** The spec's sequential-jump target: the base that [prev] built (its
    address plus its immediate for [auipc], its immediate alone otherwise)
    plus the immediate of a [jalr]. *)
Definition sequential_target (instr prev : te_decoded_instruction_t)
    (prev_addr : Z) : Z :=
  wrap64 ((if op_eqb (rv.op (insn.decode prev)) rv_op_auipc then prev_addr else 0)
          + rv.imm (insn.decode prev)
          + (if op_eqb (rv.op (insn.decode instr)) rv_op_jalr
             then rv.imm (insn.decode instr) else 0)).

(** The six rules of a step, in the spec's order of priority. *)
Inductive walk_rule : Set :=
  | rule_inferrable_jump
  | rule_sequential_jump
  | rule_implicit_return
  | rule_uninferrable_discon
  | rule_taken_branch
  | rule_fall_through.

(** The rule the spec chooses for the instruction [instr] at the current
    pc, [prev] being the instruction at [last_pc]. *)
Definition choose_rule (d : te_decoder_state_t)
    (instr prev : te_decoded_instruction_t) : walk_rule :=
  if is_inferrable_jump instr then rule_inferrable_jump
  else if sequentially_inferrable instr prev then rule_sequential_jump
  else if is_implicit_return d instr then rule_implicit_return
  else if is_uninferrable_discon instr then rule_uninferrable_discon
  else if is_branch instr && negb (Z.testbit (branch_map d) 0) then rule_taken_branch
  else rule_fall_through.

Definition step_rule (d : te_decoder_state_t) : walk_rule :=
  choose_rule d (insn_at (pc d)) (insn_at (last_pc d)).

(** The link a pop yields in state [d]. *)
Definition popped_link (d : te_decoder_state_t) : Z :=
  match pop_return_stack d with
  | Ret (link, _) => link
  | Fail _ => 0
  end.

(** The pc each rule gives. *)
Definition step_target (address : Z) (d : te_decoder_state_t) : Z :=
  let instr := insn_at (pc d) in
  match step_rule d with
  | rule_inferrable_jump => wrap64 (pc d + rv.imm (insn.decode instr))
  | rule_sequential_jump =>
      sequential_target instr (insn_at (last_pc d)) (last_pc d)
  | rule_implicit_return => popped_link d
  | rule_uninferrable_discon => address
  | rule_taken_branch => wrap64 (pc d + rv.imm (insn.decode instr))
  | rule_fall_through => wrap64 (pc d + insn.length instr)
  end.

(** When a step can be taken: what the step fetches is fetchable, the two
    unrecoverable errors of a step do not arise, the return stack is within
    its array, and the new pc passes the checks of [disseminate_pc]. *)
Definition step_defined (address : Z) (d : te_decoder_state_t) : Prop :=
  let instr := insn_at (pc d) in
  fetchable (pc d) = true /\
  (is_uninferrable_jump instr = true -> fetchable (last_pc d) = true) /\
  (step_rule d = rule_implicit_return ->
     call_counter d < Z.of_nat (length (return_stack d))) /\
  (step_rule d = rule_uninferrable_discon -> stop_at_last_branch d = false) /\
  (is_branch instr = true -> branches d ≠ 0) /\
  (is_call instr = true ->
     0 < call_counter_max <= TE_MAX_CALL_DEPTH /\
     0 <= call_counter d <= call_counter_max /\
     Z.of_nat (length (return_stack d)) = TE_MAX_CALL_DEPTH) /\
  instruction_count d ≠ 0 /\
  fetchable (step_target address d) = true /\
  step_target address d ≠ pc d.

(** The return stack after a step from [d]: pushed for a call, popped for
    an implicit return, as it was otherwise. *)
Definition stack_after_step (d : te_decoder_state_t) (rs' : list Z) (cc' : Z) : Prop :=
  if is_call (insn_at (pc d)) then
    take (Z.to_nat cc') rs' =
      (if call_counter d =? call_counter_max
       then drop 1 (stack_contents d) else stack_contents d)
      ++ [link_of (pc d)] /\
    cc' = (if call_counter d =? call_counter_max
           then call_counter_max else call_counter d + 1) /\
    (call_counter d < call_counter_max ->
     rs' = <[Z.to_nat (call_counter d) := link_of (pc d)]> (return_stack d)) /\
    length rs' = length (return_stack d)
  else
    rs' = return_stack d /\
    cc' = match step_rule d with
          | rule_implicit_return => wrap64 (call_counter d - 1)
          | _ => call_counter d
          end.

(** The branch bits after a step from [d]: one bit less when the
    instruction at pc is a branch. *)
Definition branches_after_step (d : te_decoder_state_t) : Z :=
  if is_branch (insn_at (pc d)) then branches d - 1 else branches d.
Definition branch_map_after_step (d : te_decoder_state_t) : Z :=
  if is_branch (insn_at (pc d)) then Z.shiftr (branch_map d) 1 else branch_map d.

(** The branch bits are left as they are. *)
Definition keeps_branches (d d' : te_decoder_state_t) : Prop :=
  branches d' = branches d /\ branch_map d' = branch_map d.

(** A format 1 packet is well formed when its branch map has no bit at or
    above its count of branches (31 when the count field is 0). *)
Definition te_inst_wf (te_inst : te_inst_t) : Prop :=
  te_inst.format te_inst = 1 ->
  0 <= te_inst.branches te_inst /\
  0 <= te_inst.branch_map te_inst <
    2 ^ (if te_inst.branches te_inst =? 0 then 31 else te_inst.branches te_inst).

(** The states a decoder gets into: it is opened, and then handed packets
    that it returns from. *)
Inductive reachable : te_decoder_state_t -> Prop :=
  | reachable_open : reachable te_open_trace_decoder
  | reachable_te_inst d fuel te_inst d' :
      reachable d -> te_inst_wf te_inst ->
      te_process_te_inst fuel te_inst d = Ret (tt, d') ->
      reachable d'
  | reachable_te_support d fuel packet d' :
      reachable d ->
      te_process_te_support fuel packet d = Ret (tt, d') ->
      reachable d'.

(** A coherent decoded cache stays coherent. *)
Definition keeps_cache_ok (d d' : te_decoder_state_t) : Prop :=
  cache_ok d -> cache_ok d'.

(** What a step leaves alone: the reported address and the three flags. *)
Definition keeps_flags (d d' : te_decoder_state_t) : Prop :=
  address d' = address d /\
  stop_at_last_branch d' = stop_at_last_branch d /\
  inferred_address d' = inferred_address d /\
  start_of_trace d' = start_of_trace d.

(** ** Vocabulary of the further properties *)

(** A list of retirements is a path from [from]: each starts where the one
    before it ended, none stays where it is and none ends at the sentinel;
    [trace_end] is where the path ends. *)
Fixpoint chained (from : Z) (rs : list retirement) : Prop :=
  match rs with
  | [] => True
  | r :: rs =>
      old_pc r = from /\ new_pc r ≠ old_pc r /\
      new_pc r ≠ SENTINEL_BAD_ADDRESS /\ chained (new_pc r) rs
  end.

Fixpoint trace_end (from : Z) (rs : list retirement) : Z :=
  match rs with
  | [] => from
  | r :: rs => trace_end (new_pc r) rs
  end.

(** A retirement carries a decoded record for its new pc. *)
Definition retirement_ok (r : retirement) : Prop :=
  rv.pc (insn.decode (new_instr r)) = new_pc r /\ coherent (new_instr r).

(** What any part of the decoder does to the trace and to the return
    stack: it retires a path of instructions from the pc it starts at to
    the pc it ends at and counts them, and it keeps the return stack
    within its bounds. *)
Definition walked (d d' : te_decoder_state_t) : Prop :=
  exists rs,
    retired d' = retired d ++ rs /\
    chained (pc d) rs /\ trace_end (pc d) rs = pc d' /\
    (0 <= instruction_count d < 2 ^ 64 ->
     instruction_count d' =
       wrap64 (instruction_count d + Z.of_nat (length rs))) /\
    length (return_stack d') = length (return_stack d) /\
    (0 <= call_counter d <= call_counter_max ->
     0 <= call_counter d' <= call_counter_max) /\
    (cache_ok d -> cache_ok d' /\ Forall retirement_ok rs).

(** What a walk leaves alone: the reported address and [start_of_trace]. *)
Definition keeps_address (d d' : te_decoder_state_t) : Prop :=
  address d' = address d /\ start_of_trace d' = start_of_trace d.

(** The states a decoder gets into when it is handed any packets at all. *)
Inductive reached : te_decoder_state_t -> Prop :=
  | reached_open : reached te_open_trace_decoder
  | reached_te_inst d fuel te_inst d' :
      reached d ->
      te_process_te_inst fuel te_inst d = Ret (tt, d') ->
      reached d'
  | reached_te_support d fuel packet d' :
      reached d ->
      te_process_te_support fuel packet d = Ret (tt, d') ->
      reached d'.

(** ** The monad *)

Lemma bind_inv {A B} (m : M A) (k : A -> M B) d r :
  bind m k d = Ret r -> exists a d1, m d = Ret (a, d1) /\ k a d1 = Ret r.
Proof.
  unfold bind. destruct (m d) as [[a d1]|f]; [eauto | discriminate].
Qed.

Lemma bind_ret {A B} (m : M A) (k : A -> M B) d a d1 :
  m d = Ret (a, d1) -> bind m k d = k a d1.
Proof. unfold bind. now intros ->. Qed.

Lemma bind_fail {A B} (m : M A) (k : A -> M B) d f :
  m d = Fail f -> bind m k d = Fail f.
Proof. unfold bind. now intros ->. Qed.

Lemma assert_inv b d r : assert b d = Ret r -> b = true /\ r = (tt, d).
Proof. destruct b; cbn; [intros [= <-]; auto | discriminate]. Qed.

Lemma assert_true b d : b = true -> assert b d = Ret (tt, d).
Proof. now intros ->. Qed.

(** Taking a returning computation apart. *)
Ltac minv1 :=
  match goal with
  | H : bind _ _ _ = Ret _ |- _ =>
      let a := fresh "a" in
      let d := fresh "d" in
      let E := fresh "E" in
      apply bind_inv in H; destruct H as (a & d & E & H)
  | H : assert _ _ = Ret _ |- _ => apply assert_inv in H; destruct H as [H ?]
  | H : ret _ _ = Ret _ |- _ => cbv [ret] in H
  | H : get _ = Ret _ |- _ => cbv [get] in H
  | H : gets _ _ = Ret _ |- _ => cbv [gets] in H
  | H : modify _ _ = Ret _ |- _ => cbv [modify] in H
  | H : fail _ _ = Ret _ |- _ => discriminate H
  | H : unrecoverable_error _ _ _ = Ret _ |- _ => discriminate H
  | H : when ?b _ _ = Ret _ |- _ => unfold when in H; destruct b eqn:?
  | H : (if ?b then _ else _) _ = Ret _ |- _ => destruct b eqn:?
  | H : (let '(_, _) := ?p in _) _ = Ret _ |- _ => destruct p eqn:?
  | H : match ?o with Some _ => _ | None => _ end _ = Ret _ |- _ => destruct o eqn:?
  | H : Ret _ = Ret _ |- _ => injection H as H; try subst
  | H : (_, _) = (_, _) |- _ => injection H as ? ?; try subst
  | x : unit |- _ => destruct x
  end.
Ltac minv := repeat minv1.

(** *** The instruction oracle *)

Lemma touch_touch c n1 n2 n3 c' n1' n2' n3' d :
  touch c n1 n2 n3 (touch c' n1' n2' n3' d) = touch c n1 n2 n3 d.
Proof. reflexivity. Qed.

#[local] Instance same_core_preorder : PreOrder same_core.
Proof.
  split.
  - intros d. exists (decoded_cache d), (num_gets d), (num_same d), (num_hits d).
    now destruct d.
  - intros d1 d2 d3 (c & n1 & n2 & n3 & ->) (c' & n1' & n2' & n3' & ->).
    now exists c', n1', n2', n3'.
Qed.

Ltac same_core_tac :=
  match goal with
  | |- same_core _ ?d' =>
      exists (decoded_cache d'), (num_gets d'), (num_same d'), (num_hits d');
      reflexivity
  end.

Lemma get_instr_frame address instr : preserves same_core (get_instr address instr).
Proof.
  intros d i' d' H. unfold get_instr in H. minv; same_core_tac.
Qed.

Lemma fetchable_inv a :
  fetchable a = true ->
  a ≠ 0 /\ a ≠ SENTINEL_BAD_ADDRESS /\
  ((4 =? (te_get_instruction a).2) || (2 =? (te_get_instruction a).2)) = true.
Proof.
  unfold fetchable. intros H.
  apply andb_prop in H as [H Hlen]. apply andb_prop in H as [H0 HS].
  apply negb_true_iff, Z.eqb_neq in H0, HS. auto.
Qed.

Lemma insn_at_pc a : rv.pc (insn.decode (insn_at a)) = a.
Proof. reflexivity. Qed.

Lemma coherent_insn_at a : coherent (insn_at a).
Proof. now intros _ _. Qed.

Lemma coherent_sentinel : coherent sentinel_instr.
Proof. intros _ H. now contradict H. Qed.

Lemma coherent_zeroed : coherent zeroed_instr.
Proof. intros H _. now contradict H. Qed.

Lemma cache_ok_touch c n1 n2 n3 d :
  (forall s, coherent (c s)) -> cache_ok (touch c n1 n2 n3 d).
Proof. intros H s. apply H. Qed.

(** On a coherent cache [get_instr] returns the instruction at the
    address, whichever of its three paths it takes. *)
Lemma get_instr_ok a i d :
  fetchable a = true -> coherent i -> cache_ok d ->
  exists d', get_instr a i d = Ret (insn_at a, d') /\ same_core d d' /\ cache_ok d'.
Proof.
  intros Hf Hi Hc. apply fetchable_inv in Hf as (H0 & HS & Hlen).
  unfold get_instr.
  rewrite (bind_ret _ _ _ tt d) by (apply assert_true; unfold SENTINEL_BAD_ADDRESS in *; lia).
  rewrite (bind_ret _ _ _ tt (with_num_gets (wrap64 (num_gets d + 1)) d)) by reflexivity.
  destruct (rv.pc (insn.decode i) =? a) eqn:Esame.
  - apply Z.eqb_eq in Esame. eexists. split; [|split].
    + unfold bind, modify, ret. rewrite Hi by congruence. now rewrite Esame.
    + same_core_tac.
    + intros s. apply Hc.
  - rewrite (bind_ret _ _ _ _ _ eq_refl).
    cbn [decoded_cache with_num_gets].
    destruct (rv.pc (insn.decode (decoded_cache d (TE_SLOT_NUMBER a))) =? a) eqn:Ehit.
    + apply Z.eqb_eq in Ehit. eexists. split; [|split].
      * unfold bind, modify, ret. rewrite (Hc (TE_SLOT_NUMBER a)) by congruence.
        now rewrite Ehit.
      * same_core_tac.
      * intros s. apply Hc.
    + unfold insn_at. destruct (te_get_instruction a) as [instruction len] eqn:Eg.
      cbn [fst snd] in *.
      rewrite (bind_ret _ _ _ tt _) by (now apply assert_true).
      eexists. split; [reflexivity|split].
      * same_core_tac.
      * intros s. cbn. destruct (s =? TE_SLOT_NUMBER a); [|apply Hc].
        intros _ _. cbn. unfold insn_at. now rewrite Eg.
Qed.

(** *** Branch resolution *)

Lemma is_taken_branch_eq d instr :
  is_taken_branch instr d =
    if is_branch instr then
      if branches d =? 0 then
        Fail (exited "cannot resolve branch (branch-map depleted)!"%string)
      else
        Ret (negb (Z.testbit (branch_map d) 0),
             with_branch_map (Z.shiftr (branch_map d) 1)
               (with_branches (branches d - 1) d))
    else Ret (false, d).
Proof.
  unfold is_taken_branch. destruct (is_branch instr); [|reflexivity]. cbn [negb].
  unfold bind, get. rewrite Z.eqb_sym. now destruct (branches d =? 0).
Qed.

(** C4. Resolving a branch: for a branch instruction with bits pending,
    [taken] is the negation of bit 0 of [branch_map], [branches] is
    decremented and [branch_map] shifted right by one; with no bit pending
    the decoder leaves with the branch-map-depletion error and consumes
    nothing; for an instruction that is not a branch the state is left as
    it is and the answer is "not taken". *)
Theorem is_taken_branch_consumes_one_bit d instr :
  (is_branch instr = true -> branches d ≠ 0 ->
   is_taken_branch instr d =
     Ret (negb (Z.testbit (branch_map d) 0),
          with_branch_map (Z.shiftr (branch_map d) 1)
            (with_branches (branches d - 1) d))) /\
  (is_branch instr = true -> branches d = 0 ->
   is_taken_branch instr d =
     Fail (exited "cannot resolve branch (branch-map depleted)!"%string)) /\
  (is_branch instr = false -> is_taken_branch instr d = Ret (false, d)).
Proof.
  rewrite is_taken_branch_eq. repeat split.
  - intros -> H. apply Z.eqb_neq in H. now rewrite H.
  - now intros -> ->.
  - now intros ->.
Qed.

Lemma is_taken_branch_drains instr : preserves drains (is_taken_branch instr).
Proof.
  intros d taken d' H. rewrite is_taken_branch_eq in H.
  destruct (is_branch instr).
  - destruct (branches d =? 0) eqn:E; [discriminate|].
    apply Z.eqb_neq in E. injection H as _ <-. split; cbn; [lia|].
    intros (Hb & Hm1 & Hm2). unfold bmap_ok. cbn. split; [lia|split].
    + now apply Z.shiftr_nonneg.
    + rewrite Z.shiftr_div_pow2 by lia. apply Z.div_lt_upper_bound; [lia|].
      change (2 ^ 1) with 2. rewrite <- Z.pow_succ_r by lia.
      now replace (Z.succ (branches d - 1)) with (branches d) by lia.
  - injection H as _ <-. split; [lia|auto].
Qed.

(** *** Support packets *)

(** C10. A support packet whose [support_type] is not 0 changes no field
    of the decoder state and retires nothing, whatever its [qual_status];
    the reset of [start_of_trace] and the forward walk are inside the
    test for [support_type] 0. *)
Theorem te_process_te_support_other_type fuel packet d :
  support_type packet ≠ 0 ->
  te_process_te_support fuel packet d = Ret (tt, d).
Proof.
  intros H. unfold te_process_te_support.
  destruct (0 =? support_type packet) eqn:E; [|reflexivity].
  apply Z.eqb_eq in E. congruence.
Qed.

(** *** The return stack *)

(** What [pop_return_stack] does: it reads the element at index
    [call_counter], one above the last link pushed, and then decrements. *)
Lemma pop_return_stack_spec d v :
  0 <= call_counter d ->
  return_stack d !! Z.to_nat (call_counter d) = Some v ->
  pop_return_stack d = Ret (v, with_call_counter (wrap64 (call_counter d - 1)) d).
Proof.
  intros H0 Hv. unfold pop_return_stack.
  rewrite (bind_ret _ _ _ d d) by reflexivity.
  rewrite (bind_ret _ _ _ v d); [reflexivity|].
  unfold read_return_stack. rewrite (bind_ret _ _ _ d d) by reflexivity.
  destruct (0 <=? call_counter d) eqn:E; [|lia].
  now rewrite Hv.
Qed.

Lemma read_return_stack_ok i v d :
  0 <= i -> return_stack d !! Z.to_nat i = Some v ->
  read_return_stack i d = Ret (v, d).
Proof.
  intros H0 Hv. unfold read_return_stack.
  rewrite (bind_ret _ _ _ d d) by reflexivity.
  destruct (0 <=? i) eqn:E; [|lia]. now rewrite Hv.
Qed.

Lemma write_return_stack_ok i v d :
  0 <= i < Z.of_nat (length (return_stack d)) ->
  write_return_stack i v d =
    Ret (tt, with_return_stack (<[Z.to_nat i := v]> (return_stack d)) d).
Proof.
  intros H. unfold write_return_stack.
  rewrite (bind_ret _ _ _ d d) by reflexivity.
  destruct (0 <=? i) eqn:E1; [|lia].
  destruct (i <? Z.of_nat (length (return_stack d))) eqn:E2; [|lia].
  reflexivity.
Qed.

(** The eviction loop moves the [n] elements above index [i] down by one
    and leaves the rest of the array alone. *)
Lemma shift_return_stack_ok n : forall (i : nat) d,
  (i + n < length (return_stack d))%nat ->
  exists rs',
    shift_return_stack n (Z.of_nat i) d = Ret (tt, with_return_stack rs' d) /\
    length rs' = length (return_stack d) /\
    forall j : nat, rs' !! j =
      if decide (i <= j < i + n)%nat then return_stack d !! S j
      else return_stack d !! j.
Proof.
  induction n as [|n IH]; intros i d Hlen.
  - exists (return_stack d). split; [now destruct d|]. split; [reflexivity|].
    intros j. destruct (decide _); [lia|reflexivity].
  - destruct (lookup_lt_is_Some_2 (return_stack d) (S i)) as [v Hv]; [lia|].
    cbn [shift_return_stack].
    rewrite (bind_ret _ _ _ v d).
    2:{ apply read_return_stack_ok; [lia|].
        now replace (Z.to_nat (Z.of_nat i + 1)) with (S i) by lia. }
    rewrite (bind_ret _ _ _ tt _ (write_return_stack_ok (Z.of_nat i) v d ltac:(lia))).
    rewrite Nat2Z.id.
    set (d1 := with_return_stack (<[i:=v]> (return_stack d)) d).
    destruct (IH (S i) d1) as (rs' & Hrun & Hl & Hj).
    { cbn. rewrite length_insert. lia. }
    exists rs'. split; [|split].
    + replace (Z.of_nat i + 1) with (Z.of_nat (S i)) by lia. exact Hrun.
    + rewrite Hl. cbn. apply length_insert.
    + intros j. rewrite Hj. cbn [return_stack d1 with_return_stack].
      destruct (decide (S i <= j < S i + n)%nat), (decide (i <= j < i + S n)%nat);
        try lia.
      * apply list_lookup_insert_ne. lia.
      * assert (j = i) as -> by lia.
        rewrite list_lookup_insert_eq by lia. now rewrite Hv.
      * apply list_lookup_insert_ne. lia.
Qed.

(** Running a computation forward. *)
Ltac mget := rewrite (bind_ret get _ _ _ _ eq_refl).
Ltac mgets := rewrite (bind_ret (gets _) _ _ _ _ eq_refl).
Ltac mmodify := rewrite (bind_ret (modify _) _ _ tt _ eq_refl).
Ltac massert :=
  match goal with
  | |- context [bind (assert ?b) ?k ?d] =>
      let H := fresh in
      assert (H : b = true) by first [lia | cbn in *; lia];
      rewrite (bind_ret (assert b) k d tt d (assert_true b d H)); clear H
  end.

Ltac mwrite :=
  match goal with
  | |- context [bind (write_return_stack ?i ?v) ?k ?d] =>
      let H := fresh in
      assert (H : 0 <= i < Z.of_nat (length (return_stack d))) by (cbn in *; lia);
      rewrite (bind_ret _ k d tt _ (write_return_stack_ok i v d H)); clear H
  end.

Ltac same_but_stack_tac :=
  match goal with
  | |- same_but_stack _ ?d' =>
      exists (call_counter d'), (return_stack d'), (decoded_cache d'),
             (num_gets d'), (num_same d'), (num_hits d');
      reflexivity
  end.

Lemma push_return_stack_ok a d :
  cache_ok d -> fetchable a = true ->
  0 < call_counter_max <= TE_MAX_CALL_DEPTH ->
  0 <= call_counter d <= call_counter_max ->
  Z.of_nat (length (return_stack d)) = TE_MAX_CALL_DEPTH ->
  exists d',
    push_return_stack a d = Ret (tt, d') /\
    stack_contents d' =
      (if call_counter d =? call_counter_max
       then drop 1 (stack_contents d) else stack_contents d) ++ [link_of a] /\
    call_counter d' =
      (if call_counter d =? call_counter_max
       then call_counter_max else call_counter d + 1) /\
    (call_counter d < call_counter_max ->
     return_stack d' = <[Z.to_nat (call_counter d) := link_of a]> (return_stack d)) /\
    length (return_stack d') = length (return_stack d) /\
    cache_ok d' /\ same_but_stack d d'.
Proof.
  intros Hc Hf Hcap Hcc Hlen. unfold push_return_stack.
  mget. massert. massert.
  destruct (call_counter_max =? call_counter d) eqn:Efull.
  - (* the stack is full: the oldest link goes *)
    apply Z.eqb_eq in Efull.
    destruct (call_counter d =? call_counter_max) eqn:E; [clear E|lia].
    cbn [when].
    set (d1 := with_call_counter (call_counter d - 1) d).
    destruct (shift_return_stack_ok (Z.to_nat (call_counter d1)) 0 d1)
      as (rs' & Hrun & Hl & Hj).
    { cbn. lia. }
    rewrite (bind_ret _ _ _ tt (with_return_stack rs' d1)).
    2:{ mmodify. mget. exact Hrun. }
    destruct (get_instr_ok a sentinel_instr (with_return_stack rs' d1))
      as (d2 & Hget & (c & n1 & n2 & n3 & ->) & Hc2);
      [exact Hf | apply coherent_sentinel | exact Hc |].
    rewrite (bind_ret _ _ _ _ _ Hget). mget.
    mwrite.
    eexists. split; [reflexivity|].
    cbn in Hl, Hj |- *.
    replace (call_counter d - 1 + 1) with (call_counter d) by lia.
    split; [|split; [now symmetry|split; [lia|split; [|split]]]].
    + unfold stack_contents, instruction_size, link_of. cbn.
      apply list_eq. intros j.
      assert (Hn : (Z.to_nat (call_counter d) = S (Z.to_nat (call_counter d - 1)))%nat) by lia.
      destruct (decide (j < Z.to_nat (call_counter d - 1))%nat) as [Hlt|Hge].
      * rewrite lookup_take_lt by lia.
        rewrite list_lookup_insert_ne by lia. rewrite Hj.
        destruct (decide _) as [_|?]; [|lia].
        rewrite lookup_app_l by (rewrite length_drop, length_take; lia).
        rewrite lookup_drop, lookup_take_lt by lia. reflexivity.
      * destruct (decide (j = Z.to_nat (call_counter d - 1))) as [->|Hne].
        -- rewrite lookup_take_lt by lia.
           rewrite list_lookup_insert_eq by lia.
           rewrite lookup_app_r by (rewrite length_drop, length_take; lia).
           rewrite length_drop, length_take.
           now replace (_ - _)%nat with 0%nat by lia.
        -- rewrite lookup_take_ge by lia. symmetry.
           apply lookup_ge_None_2.
           rewrite length_app, length_drop, length_take. cbn. lia.
    + rewrite length_insert. exact Hl.
    + exact Hc2.
    + same_but_stack_tac.
  - (* there is room *)
    apply Z.eqb_neq in Efull. cbn [when].
    rewrite (bind_ret (ret tt) _ _ tt d eq_refl).
    destruct (call_counter d =? call_counter_max) eqn:E; [lia|].
    destruct (get_instr_ok a sentinel_instr d)
      as (d2 & Hget & (c & n1 & n2 & n3 & ->) & Hc2);
      [exact Hf | apply coherent_sentinel | exact Hc |].
    rewrite (bind_ret _ _ _ _ _ Hget). mget.
    mwrite.
    eexists. split; [reflexivity|]. cbn.
    split; [|split; [reflexivity|split; [reflexivity|split; [|split]]]].
    + unfold stack_contents, instruction_size, link_of. cbn.
      replace (Z.to_nat (call_counter d + 1)) with (S (Z.to_nat (call_counter d))) by lia.
      erewrite take_S_r by (apply list_lookup_insert_eq; lia).
      now rewrite take_insert_ge by lia.
    + apply length_insert.
    + exact Hc2.
    + same_but_stack_tac.
Qed.

Lemma call_counter_max_eq :
  0 <= call_counter_width discovery_response <= 7 ->
  call_counter_max = 2 ^ (call_counter_width discovery_response + 2).
Proof.
  intros H. unfold call_counter_max, wrap32.
  rewrite Z.shiftl_1_l. apply Z.mod_small. split; [apply Z.pow_nonneg; lia|].
  apply Z.pow_lt_mono_r; lia.
Qed.

Lemma stack_contents_length d :
  0 <= call_counter d <= Z.of_nat (length (return_stack d)) ->
  length (stack_contents d) = Z.to_nat (call_counter d).
Proof. intros H. unfold stack_contents. rewrite length_take. lia. Qed.

Lemma push_all_ok calls : forall d,
  cache_ok d -> Forall (fun a => fetchable a = true) calls ->
  0 < call_counter_max <= TE_MAX_CALL_DEPTH ->
  0 <= call_counter d <= call_counter_max ->
  Z.of_nat (length (return_stack d)) = TE_MAX_CALL_DEPTH ->
  exists d',
    push_all calls d = Ret (tt, d') /\
    stack_contents d' =
      drop (length (stack_contents d ++ map link_of calls) - Z.to_nat call_counter_max)
        (stack_contents d ++ map link_of calls) /\
    call_counter d' =
      Z.min (call_counter d + Z.of_nat (length calls)) call_counter_max.
Proof.
  induction calls as [|a calls IH]; intros d Hc Hf Hcap Hcc Hlen.
  - exists d. split; [reflexivity|]. cbn. rewrite app_nil_r. split; [|lia].
    rewrite stack_contents_length by lia.
    now replace (_ - _)%nat with 0%nat by lia.
  - inversion Hf as [|? ? Ha Hf']; subst.
    destruct (push_return_stack_ok a d Hc Ha Hcap Hcc Hlen)
      as (d1 & Hrun & Hst & Hcc1 & _ & Hlen1 & Hc1 & _).
    assert (Hcc1' : 0 <= call_counter d1 <= call_counter_max).
    { rewrite Hcc1. destruct (call_counter d =? call_counter_max) eqn:E; lia. }
    destruct (IH d1 Hc1 Hf' Hcap Hcc1' ltac:(lia)) as (d' & Hrun' & Hst' & Hcc').
    exists d'. split; [|split].
    + cbn [push_all]. now rewrite (bind_ret _ _ _ _ _ Hrun).
    + rewrite Hst', Hst. cbn [map].
      pose proof (stack_contents_length d ltac:(lia)) as HS.
      destruct (call_counter d =? call_counter_max) eqn:E.
      * destruct (stack_contents d) as [|x S] eqn:ES; [cbn in HS; lia|].
        cbn [drop]. rewrite <- !app_assoc. cbn [app length] in *.
        change (drop 0 S) with S.
        set (L := S ++ link_of a :: map link_of calls).
        assert (HL : (Z.to_nat call_counter_max <= length L)%nat).
        { subst L. rewrite length_app. cbn [length]. lia. }
        replace (Datatypes.S (length L) - Z.to_nat call_counter_max)%nat
          with (Datatypes.S (length L - Z.to_nat call_counter_max))%nat by lia.
        reflexivity.
      * rewrite <- !app_assoc. reflexivity.
    + rewrite Hcc', Hcc1. cbn [length].
      destruct (call_counter d =? call_counter_max) eqn:E; lia.
Qed.

(** C5. [push_return_stack] stores the link of the call (its address plus
    the length of the instruction there) at index [call_counter] and
    increments the counter; on a full stack of [2^(call_counter_width+2)]
    links it first drops the link at index 0 and moves the others down by
    one.  Pushing any list of calls onto an empty stack leaves the links of
    the last [capacity] calls, in order. *)
Theorem push_return_stack_fifo d :
  let capacity := 2 ^ (call_counter_width discovery_response + 2) in
  cache_ok d ->
  0 <= call_counter_width discovery_response <= 7 ->
  capacity <= TE_MAX_CALL_DEPTH ->
  Z.of_nat (length (return_stack d)) = TE_MAX_CALL_DEPTH ->
  0 <= call_counter d <= capacity ->
  (forall call_pc, fetchable call_pc = true ->
     exists d',
       push_return_stack call_pc d = Ret (tt, d') /\
       (call_counter d < capacity ->
          return_stack d' =
            <[Z.to_nat (call_counter d) := link_of call_pc]> (return_stack d) /\
          call_counter d' = call_counter d + 1) /\
       (call_counter d = capacity ->
          stack_contents d' = drop 1 (stack_contents d) ++ [link_of call_pc] /\
          call_counter d' = capacity)) /\
  (forall calls,
     call_counter d = 0 -> Forall (fun a => fetchable a = true) calls ->
     exists d',
       push_all calls d = Ret (tt, d') /\
       stack_contents d' =
         drop (length calls - Z.to_nat capacity) (map link_of calls) /\
       call_counter d' = Z.min (Z.of_nat (length calls)) capacity).
Proof.
  intros capacity Hc Hw Hmax Hlen Hcc. subst capacity.
  rewrite <- (call_counter_max_eq Hw) in *.
  assert (Hcap : 0 < call_counter_max <= TE_MAX_CALL_DEPTH).
  { split; [|lia]. rewrite (call_counter_max_eq Hw). apply Z.pow_pos_nonneg; lia. }
  split.
  - intros a Ha.
    destruct (push_return_stack_ok a d Hc Ha Hcap Hcc Hlen)
      as (d' & Hrun & Hst & Hcc' & Hrs & _).
    exists d'. split; [exact Hrun|]. split.
    + intros Hlt. split; [auto|].
      rewrite Hcc'. destruct (call_counter d =? call_counter_max) eqn:E; lia.
    + intros Heq. rewrite Hst, Hcc', Heq, Z.eqb_refl. auto.
  - intros calls H0 Hf.
    destruct (push_all_ok calls d Hc Hf Hcap Hcc Hlen) as (d' & Hrun & Hst & Hcc').
    exists d'. split; [exact Hrun|].
    rewrite Hst, Hcc', H0. unfold stack_contents. rewrite H0.
    change (Z.to_nat 0) with 0%nat. rewrite take_0. cbn [app].
    rewrite length_map. split; [reflexivity|lia].
Qed.

(** *** Sequentially inferrable jumps *)

Lemma op_eqb_eq a b : op_eqb a b = true <-> a = b.
Proof. unfold op_eqb. apply bool_decide_eq_true. Qed.

Lemma is_sequential_jump_ok instr prev_addr d :
  cache_ok d ->
  (is_uninferrable_jump instr = true -> fetchable prev_addr = true) ->
  exists d',
    is_sequential_jump instr prev_addr d =
      Ret (sequentially_inferrable instr (insn_at prev_addr), d') /\
    same_core d d' /\ cache_ok d'.
Proof.
  intros Hc Hf. unfold is_sequential_jump, sequentially_inferrable.
  destruct (is_uninferrable_jump instr).
  - destruct (get_instr_ok prev_addr sentinel_instr d)
      as (d' & Hget & Hs & Hc'); [auto | apply coherent_sentinel | exact Hc |].
    exists d'. split; [|auto]. cbn [negb andb].
    rewrite (bind_ret _ _ _ _ _ Hget).
    now destruct (_ || _).
  - exists d. split; [reflexivity|]. split; [reflexivity|exact Hc].
Qed.

Lemma sequential_jump_target_ok addr prev_addr d :
  cache_ok d -> fetchable addr = true -> fetchable prev_addr = true ->
  exists d',
    sequential_jump_target addr prev_addr d =
      Ret (sequential_target (insn_at addr) (insn_at prev_addr) prev_addr, d') /\
    same_core d d' /\ cache_ok d'.
Proof.
  intros Hc Ha Hp. unfold sequential_jump_target.
  destruct (get_instr_ok addr sentinel_instr d)
    as (d1 & Hget1 & Hs1 & Hc1); [auto | apply coherent_sentinel | exact Hc |].
  destruct (get_instr_ok prev_addr sentinel_instr d1)
    as (d2 & Hget2 & Hs2 & Hc2); [auto | apply coherent_sentinel | exact Hc1 |].
  exists d2. rewrite (bind_ret _ _ _ _ _ Hget1), (bind_ret _ _ _ _ _ Hget2).
  split; [|split; [etransitivity; eauto | exact Hc2]].
  unfold ret, sequential_target, wrap64. do 2 f_equal.
  destruct (op_eqb (rv.op (insn.decode (insn_at addr))) rv_op_jalr).
  - rewrite Zplus_mod_idemp_l. reflexivity.
  - now rewrite Z.add_0_r.
Qed.

(** C6. [is_sequential_jump] answers true exactly for an uninferrable jump
    whose predecessor is [auipc], [lui] or [c.lui] writing the register the
    jump reads; [sequential_jump_target] then yields the predecessor's
    address plus its immediate for [auipc] and the immediate alone for
    [lui] and [c.lui], with the immediate of the jump added exactly when
    the jump is [jalr] (addresses are 64 bits wide). *)
Theorem sequential_jump_classification_and_target d instr addr prev_addr :
  let prev := insn.decode (insn_at prev_addr) in
  let cur := insn.decode (insn_at addr) in
  let extra := if op_eqb (rv.op cur) rv_op_jalr then rv.imm cur else 0 in
  cache_ok d -> fetchable addr = true -> fetchable prev_addr = true ->
  (exists b d',
     is_sequential_jump instr prev_addr d = Ret (b, d') /\
     (b = true <->
      is_uninferrable_jump instr = true /\
      (rv.op prev = rv_op_auipc \/ rv.op prev = rv_op_lui \/
       rv.op prev = rv_op_c_lui) /\
      rv.rd prev = rv.rs1 (insn.decode instr))) /\
  (exists target d',
     sequential_jump_target addr prev_addr d = Ret (target, d') /\
     (rv.op prev = rv_op_auipc ->
      target = wrap64 (prev_addr + rv.imm prev + extra)) /\
     (rv.op prev = rv_op_lui \/ rv.op prev = rv_op_c_lui ->
      target = wrap64 (rv.imm prev + extra))).
Proof.
  intros prev cur extra Hc Ha Hp. split.
  - destruct (is_sequential_jump_ok instr prev_addr d Hc (fun _ => Hp))
      as (d' & Hrun & _).
    eexists _, d'. split; [exact Hrun|].
    unfold sequentially_inferrable. fold prev.
    rewrite !andb_true_iff, !orb_true_iff, !op_eqb_eq, Z.eqb_eq.
    intuition congruence.
  - destruct (sequential_jump_target_ok addr prev_addr d Hc Ha Hp)
      as (d' & Hrun & _).
    eexists _, d'. split; [exact Hrun|].
    unfold sequential_target. fold prev cur extra. split.
    + intros ->. reflexivity.
    + intros [-> | ->]; reflexivity.
Qed.

(** *** One step *)

Lemma disseminate_pc_ok d :
  cache_ok d -> fetchable (pc d) = true -> last_pc d ≠ pc d ->
  (if instruction_count d =? 0 then last_pc d = SENTINEL_BAD_ADDRESS
   else last_pc d ≠ SENTINEL_BAD_ADDRESS) ->
  exists c n1 n2 n3,
    disseminate_pc d =
      Ret (tt, with_instruction_count (wrap64 (instruction_count d + 1))
                 (with_retired
                    (retired d ++ [Build_retirement (last_pc d) (pc d) (insn_at (pc d))])
                    (touch c n1 n2 n3 d))) /\
    (forall s, coherent (c s)).
Proof.
  intros Hc Hf Hne Hic. pose proof (fetchable_inv _ Hf) as (H0 & HS & _).
  unfold disseminate_pc. mget. massert. massert.
  rewrite (bind_ret _ _ _ tt d).
  2:{ destruct (instruction_count d =? 0); cbn [negb]; apply assert_true; lia. }
  destruct (get_instr_ok (pc d) sentinel_instr d)
    as (d1 & Hget & (c & n1 & n2 & n3 & ->) & Hc1);
    [exact Hf | apply coherent_sentinel | exact Hc |].
  rewrite (bind_ret _ _ _ _ _ Hget).
  exists c, n1, n2, n3. split; [reflexivity|]. exact Hc1.
Qed.

(** A branch is none of the instructions the first four rules are about,
    and it is not a call. *)
Lemma is_branch_exclusive instr :
  is_branch instr = true ->
  is_inferrable_jump instr = false /\ is_uninferrable_jump instr = false /\
  is_uninferrable_discon instr = false /\ is_call instr = false.
Proof.
  unfold is_branch, is_inferrable_jump, is_uninferrable_jump,
    is_uninferrable_discon, is_uninferrable_jump, is_call.
  destruct (rv.op (insn.decode instr)); cbn; intros H; try discriminate H; auto.
Qed.

Lemma is_uninferrable_jump_discon instr :
  is_uninferrable_jump instr = true -> is_uninferrable_discon instr = true.
Proof. unfold is_uninferrable_discon. now intros ->. Qed.

Lemma is_inferrable_not_uninferrable instr :
  is_inferrable_jump instr = true -> is_uninferrable_discon instr = false.
Proof.
  unfold is_inferrable_jump, is_uninferrable_discon, is_uninferrable_jump.
  destruct (rv.op (insn.decode instr)); cbn; intros H; try discriminate H; auto.
  now destruct (rv.rs1 (insn.decode instr)).
Qed.

Lemma is_implicit_return_inv d instr :
  is_implicit_return d instr = true ->
  implicit_return te_support = true /\ 0 < call_counter d /\
  is_uninferrable_discon instr = true.
Proof.
  unfold is_implicit_return, is_uninferrable_discon, is_uninferrable_jump.
  destruct (implicit_return te_support); [|discriminate]. cbn [negb].
  destruct (_ || _) eqn:E; [|discriminate]. intros H.
  rewrite !orb_true_iff, !andb_true_iff, !op_eqb_eq, !Z.eqb_eq in E.
  split; [reflexivity|split; [lia|]].
  rewrite !orb_true_iff, !andb_true_iff, negb_true_iff, !op_eqb_eq, Z.eqb_neq.
  intuition lia.
Qed.

Lemma is_call_not_implicit_return d instr :
  is_call instr = true -> is_implicit_return d instr = false.
Proof.
  intros Hcall. destruct (is_implicit_return d instr) eqn:E; [|reflexivity].
  unfold is_implicit_return in E.
  destruct (implicit_return te_support); [|discriminate]. cbn [negb] in E.
  destruct (_ || _) eqn:E'; [|discriminate].
  unfold is_call in Hcall. cbv zeta in Hcall.
  rewrite !orb_true_iff, !andb_true_iff, !op_eqb_eq, !Z.eqb_eq in E'.
  rewrite !orb_true_iff, !andb_true_iff, !op_eqb_eq, !Z.eqb_eq in Hcall.
  intuition (try congruence; try lia).
Qed.

Lemma step_rule_implicit_return d :
  step_rule d = rule_implicit_return ->
  is_implicit_return d (insn_at (pc d)) = true.
Proof.
  unfold step_rule, choose_rule.
  repeat match goal with |- context [if ?b then _ else _] => destruct b end;
    congruence.
Qed.

Lemma bind_ex {A B} (m : M A) (k : A -> M B) d (P : B * te_decoder_state_t -> Prop) :
  (exists a d1, m d = Ret (a, d1) /\ exists r, k a d1 = Ret r /\ P r) ->
  exists r, bind m k d = Ret r /\ P r.
Proof.
  intros (a & d1 & Hm & r & Hk & HP). exists r. split; [|exact HP].
  now rewrite (bind_ret _ _ _ _ _ Hm).
Qed.

Lemma next_pc_ok address d :
  cache_ok d -> step_defined address d ->
  exists r,
    next_pc address d = Ret r /\
    exists c n1 n2 n3 rs' cc',
      r = (tt,
           with_instruction_count (wrap64 (instruction_count d + 1))
             (with_retired
                (retired d ++
                   [Build_retirement (pc d) (step_target address d)
                      (insn_at (step_target address d))])
                (with_last_pc (pc d)
                   (with_call_counter cc'
                      (with_return_stack rs'
                         (with_pc (step_target address d)
                            (with_branches (branches_after_step d)
                               (with_branch_map (branch_map_after_step d)
                                  (touch c n1 n2 n3 d)))))))))
      /\ (forall s, coherent (c s)) /\ stack_after_step d rs' cc'.
Proof.
  intros Hc (Hf & Hprev & Hpop & Hstop & Hbr & Hcall & Hic & Hft & Hne).
  unfold next_pc.
  apply bind_ex. exists (pc d), d. split; [reflexivity|].
  apply bind_ex.
  destruct (get_instr_ok (pc d) sentinel_instr d)
    as (d1 & Hget & (c & n1 & n2 & n3 & ->) & Hc1);
    [exact Hf | apply coherent_sentinel | exact Hc |].
  eexists _, _. split; [exact Hget|].
  apply bind_ex.
  match goal with |- exists a d1, ?m ?d0 = Ret (a, d1) /\ _ =>
    assert (exists c' n1' n2' n3',
              m d0 = Ret (tt,
                with_pc (step_target address d)
                  (with_call_counter
                     (match step_rule d with
                      | rule_implicit_return => wrap64 (call_counter d - 1)
                      | _ => call_counter d
                      end)
                     (with_branches (branches_after_step d)
                        (with_branch_map (branch_map_after_step d)
                           (touch c' n1' n2' n3' d))))) /\
              (forall s, coherent (c' s))) as (c' & n1' & n2' & n3' & Hrule & Hc')
  end.
  { unfold step_target, step_rule, choose_rule, branches_after_step,
      branch_map_after_step in *.
    set (instr := insn_at (pc d)) in *.
    assert (Hnb : is_uninferrable_discon instr = true -> is_branch instr = false).
    { intros Hd. destruct (is_branch instr) eqn:Eb; [|reflexivity].
      apply is_branch_exclusive in Eb. intuition congruence. }
    destruct (is_inferrable_jump instr) eqn:E1.
    - (* an inferrable jump *)
      assert (is_branch instr = false) as ->.
      { destruct (is_branch instr) eqn:Eb; [|reflexivity].
        apply is_branch_exclusive in Eb. intuition congruence. }
      exists c, n1, n2, n3. split; [|exact Hc1]. now destruct d.
    - mgets.
      destruct (is_sequential_jump_ok instr (last_pc d) (touch c n1 n2 n3 d))
        as (d2 & Hseq & (c2 & m1 & m2 & m3 & ->) & Hc2); [exact Hc1 | exact Hprev |].
      cbn [last_pc touch with_decoded_cache with_num_gets with_num_same with_num_hits].
      rewrite (bind_ret _ _ _ _ _ Hseq).
      destruct (sequentially_inferrable instr (insn_at (last_pc d))) eqn:E2.
      + (* a sequentially inferrable jump *)
        assert (Huj : is_uninferrable_jump instr = true).
        { unfold sequentially_inferrable in E2.
          apply andb_prop in E2 as [E2 _]. now apply andb_prop in E2 as [E2 _]. }
        rewrite (Hnb (is_uninferrable_jump_discon _ Huj)).
        mget.
        destruct (sequential_jump_target_ok (pc d) (last_pc d)
                    (touch c2 m1 m2 m3 (touch c n1 n2 n3 d)))
          as (d3 & Ht & (c3 & k1 & k2 & k3 & ->) & Hc3);
          [exact Hc2 | exact Hf | auto |].
        cbn [pc last_pc touch with_decoded_cache with_num_gets with_num_same
               with_num_hits].
        rewrite (bind_ret _ _ _ _ _ Ht).
        exists c3, k1, k2, k3. split; [|exact Hc3]. now destruct d.
      + mget.
        replace (is_implicit_return (touch c2 m1 m2 m3 (touch c n1 n2 n3 d)) instr)
          with (is_implicit_return d instr) by reflexivity.
        destruct (is_implicit_return d instr) eqn:E3.
        * (* an implicit return *)
          apply is_implicit_return_inv in E3 as (_ & Hcc & Hdis).
          rewrite (Hnb Hdis).
          destruct (lookup_lt_is_Some_2 (return_stack d) (Z.to_nat (call_counter d)))
            as [v Hv].
          { specialize (Hpop eq_refl). lia. }
          unfold popped_link.
          rewrite (pop_return_stack_spec d v) by (lia || exact Hv).
          rewrite (bind_ret _ _ _ _ _
                     (pop_return_stack_spec
                        (touch c2 m1 m2 m3 (touch c n1 n2 n3 d)) v
                        ltac:(cbn; lia) Hv)).
          exists c2, m1, m2, m3. split; [|exact Hc2]. now destruct d.
        * destruct (is_uninferrable_discon instr) eqn:E4.
          -- (* an uninferrable discontinuity *)
             rewrite (Hnb eq_refl).
             replace (stop_at_last_branch (touch c2 m1 m2 m3 (touch c n1 n2 n3 d)))
               with (stop_at_last_branch d) by reflexivity.
             rewrite (Hstop eq_refl).
             exists c2, m1, m2, m3. split; [|exact Hc2]. now destruct d.
          -- (* a branch, or the next instruction in memory *)
             unfold bind at 1. rewrite is_taken_branch_eq.
             destruct (is_branch instr) eqn:E5.
             ++ specialize (Hbr eq_refl). apply Z.eqb_neq in Hbr.
                cbn [branches branch_map touch with_decoded_cache with_num_gets
                       with_num_same with_num_hits andb].
                rewrite Hbr.
                exists c2, m1, m2, m3. split; [|exact Hc2].
                destruct (Z.testbit (branch_map d) 0); now destruct d.
             ++ exists c2, m1, m2, m3. split; [|exact Hc2]. now destruct d. }
  eexists _, _. split; [exact Hrule|]. clear Hrule Hget.
  pose proof (fetchable_inv _ Hf) as (_ & HS & _).
  set (instr := insn_at (pc d)) in *.
  destruct (is_call instr) eqn:Ecall.
  - (* a call: the link is pushed *)
    assert (Hrule : match step_rule d with
                    | rule_implicit_return => wrap64 (call_counter d - 1)
                    | _ => call_counter d
                    end = call_counter d).
    { pose proof (step_rule_implicit_return d) as Hi.
      pose proof (is_call_not_implicit_return d instr Ecall) as Hn.
      destruct (step_rule d); try reflexivity.
      specialize (Hi eq_refl). subst instr. congruence. }
    rewrite Hrule. clear Hrule.
    destruct (Hcall eq_refl) as (Hcap & Hcc & Hlen).
    match goal with |- exists r, _ ?d0 = Ret r /\ _ => set (d2 := d0) end.
    destruct (push_return_stack_ok (pc d) d2)
      as (d3 & Hpush & Hst & Hcc3 & Hrs3 & Hlen3 & Hc3 &
          (cc & rs & c3 & k1 & k2 & k3 & ->));
      [intros s; apply Hc' | exact Hf | exact Hcap | exact Hcc | exact Hlen |].
    apply bind_ex. eexists tt, _. split; [exact Hpush|].
    apply bind_ex. eexists tt, _. split; [reflexivity|].
    match goal with |- context [disseminate_pc ?d4] =>
      destruct (disseminate_pc_ok d4) as (c4 & j1 & j2 & j3 & Hdis & Hc4)
    end.
    { exact Hc3. }
    { exact Hft. }
    { cbn. congruence. }
    { cbn. apply Z.eqb_neq in Hic. rewrite Hic. exact HS. }
    eexists. split; [exact Hdis|].
    exists c4, j1, j2, j3, rs, cc. split; [now destruct d|]. split; [exact Hc4|].
    unfold stack_after_step. fold instr. rewrite Ecall.
    cbn in Hst, Hcc3, Hrs3, Hlen3. auto.
  - (* not a call *)
    apply bind_ex. eexists tt, _. split; [reflexivity|].
    apply bind_ex. eexists tt, _. split; [reflexivity|].
    match goal with |- context [disseminate_pc ?d4] =>
      destruct (disseminate_pc_ok d4) as (c4 & j1 & j2 & j3 & Hdis & Hc4)
    end.
    { intros s. apply Hc'. }
    { exact Hft. }
    { cbn. congruence. }
    { cbn. apply Z.eqb_neq in Hic. rewrite Hic. exact HS. }
    eexists. split; [exact Hdis|].
    eexists c4, j1, j2, j3, (return_stack d), _. split; [now destruct d|].
    split; [exact Hc4|].
    unfold stack_after_step. fold instr. rewrite Ecall. auto.
Qed.

(** C2. One step of [next_pc]: the instruction at the current pc is
    fetched and the new pc is the one given by the first rule that applies,
    in the order inferrable jump, sequentially inferrable jump, implicit
    return (the link a pop yields), uninferrable discontinuity (the
    reported address), taken branch, next instruction in memory
    ([step_target]); for a call the link of the pre-step pc is then pushed
    on the return stack; [last_pc] becomes the pre-step pc and exactly one
    retirement, from the pre-step pc to the new one, is handed to the
    host.  The step is taken whenever [step_defined] holds, which leaves
    out the two unrecoverable errors of a step and the failures of its
    assertions. *)
Theorem next_pc_applies_one_rule address d :
  cache_ok d -> step_defined address d ->
  exists d',
    next_pc address d = Ret (tt, d') /\
    pc d' = step_target address d /\
    stack_after_step d (return_stack d') (call_counter d') /\
    last_pc d' = pc d /\
    retired d' =
      retired d ++ [Build_retirement (pc d) (pc d') (insn_at (pc d'))].
Proof.
  intros Hc Hd.
  destruct (next_pc_ok address d Hc Hd)
    as (r & Hrun & c & n1 & n2 & n3 & rs' & cc' & -> & _ & Hst).
  eexists. split; [exact Hrun|]. cbn. auto.
Qed.

(** C9. When the instruction at pc is an uninferrable discontinuity that
    is neither a sequentially inferrable jump nor an implicit return, and
    [stop_at_last_branch] is set, [next_pc] leaves with the error
    "unexpected uninferrable discontinuity" and does not go to the reported
    address. *)
Theorem next_pc_unexpected_discontinuity address d :
  let instr := insn_at (pc d) in
  cache_ok d -> fetchable (pc d) = true ->
  (is_uninferrable_jump instr = true -> fetchable (last_pc d) = true) ->
  is_uninferrable_discon instr = true ->
  sequentially_inferrable instr (insn_at (last_pc d)) = false ->
  is_implicit_return d instr = false ->
  stop_at_last_branch d = true ->
  next_pc address d =
    Fail (exited "unexpected uninferrable discontinuity"%string).
Proof.
  intros instr Hc Hf Hprev Hdis Hseq Himp Hstop. unfold next_pc.
  mgets.
  destruct (get_instr_ok (pc d) sentinel_instr d)
    as (d1 & Hget & (c & n1 & n2 & n3 & ->) & Hc1);
    [exact Hf | apply coherent_sentinel | exact Hc |].
  rewrite (bind_ret _ _ _ _ _ Hget). fold instr.
  apply bind_fail.
  destruct (is_inferrable_jump instr) eqn:E1.
  { apply is_inferrable_not_uninferrable in E1. congruence. }
  mgets.
  destruct (is_sequential_jump_ok instr (last_pc d) (touch c n1 n2 n3 d))
    as (d2 & Hsq & (c2 & m1 & m2 & m3 & ->) & Hc2); [exact Hc1 | exact Hprev |].
  cbn [last_pc touch with_decoded_cache with_num_gets with_num_same with_num_hits].
  rewrite (bind_ret _ _ _ _ _ Hsq), Hseq. mget.
  replace (is_implicit_return (touch c2 m1 m2 m3 (touch c n1 n2 n3 d)) instr)
    with (is_implicit_return d instr) by reflexivity.
  rewrite Himp, Hdis.
  replace (stop_at_last_branch (touch c2 m1 m2 m3 (touch c n1 n2 n3 d)))
    with (stop_at_last_branch d) by reflexivity.
  now rewrite Hstop.
Qed.

(** ** What the computations preserve *)

Section preserves.
Context (R : relation te_decoder_state_t) `{!PreOrder R}.

Lemma preserves_bind {A B} (m : M A) (k : A -> M B) :
  preserves R m -> (forall a, preserves R (k a)) -> preserves R (bind m k).
Proof.
  intros Hm Hk d b d' H. apply bind_inv in H as (a & d1 & H1 & H2).
  transitivity d1; [eapply Hm | eapply Hk]; eauto.
Qed.

Lemma preserves_ret {A} (a : A) : preserves R (ret a).
Proof. intros d ? d' [= _ <-]. reflexivity. Qed.

Lemma preserves_get : preserves R get.
Proof. intros d ? d' [= _ <-]. reflexivity. Qed.

Lemma preserves_gets {A} (f : te_decoder_state_t -> A) : preserves R (gets f).
Proof. intros d ? d' [= _ <-]. reflexivity. Qed.

Lemma preserves_fail {A} f : preserves R (@fail A f).
Proof. intros d ? d' [=]. Qed.

Lemma preserves_unrecoverable_error {A} i s :
  preserves R (@unrecoverable_error A i s).
Proof. intros d ? d' [=]. Qed.

Lemma preserves_assert b : preserves R (assert b).
Proof. destruct b; [apply preserves_ret | apply preserves_fail]. Qed.

Lemma preserves_when b m : preserves R m -> preserves R (when b m).
Proof. destruct b; [auto | intros _; apply preserves_ret]. Qed.

Lemma preserves_modify f : (forall d, R d (f d)) -> preserves R (modify f).
Proof. intros H d ? d' [= _ <-]. apply H. Qed.
End preserves.

Lemma preserves_weaken {A} (R R' : relation te_decoder_state_t) (m : M A) :
  (forall d d', R d d' -> R' d d') -> preserves R m -> preserves R' m.
Proof. intros H Hm d a d' Hr. eapply H, Hm, Hr. Qed.

#[local] Instance keeps_branches_preorder : PreOrder keeps_branches.
Proof.
  split.
  - now intros d.
  - intros d1 d2 d3 [H1 H2] [H3 H4]. split; congruence.
Qed.

#[local] Instance drains_preorder : PreOrder drains.
Proof.
  split.
  - intros d. split; [lia|auto].
  - intros d1 d2 d3 [H1 H2] [H3 H4]. split; [lia|auto].
Qed.

Lemma same_core_keeps_branches d d' : same_core d d' -> keeps_branches d d'.
Proof. now intros (c & n1 & n2 & n3 & ->). Qed.

Lemma keeps_branches_drains d d' : keeps_branches d d' -> drains d d'.
Proof.
  intros [H1 H2]. split; [lia|]. unfold bmap_ok. now rewrite H1, H2.
Qed.

(** Proving that a computation built from the monad's operations
    preserves a relation, from what its parts preserve. *)
Create HintDb pres discriminated.

Ltac pres_step :=
  first
    [ apply preserves_ret; typeclasses eauto
    | apply preserves_get; typeclasses eauto
    | apply preserves_gets; typeclasses eauto
    | apply preserves_fail
    | apply preserves_unrecoverable_error
    | apply preserves_assert; typeclasses eauto
    | apply preserves_modify; intros ?; solve [split; reflexivity]
    | solve [auto with pres]
    | apply preserves_when; [typeclasses eauto|]
    | apply preserves_bind; [typeclasses eauto | | intros ?]
    | match goal with
      | |- preserves _ (if ?b then _ else _) => destruct b
      | |- preserves _ (let '(_, _) := ?p in _) => destruct p
      | |- preserves _ (match ?o with Some _ => _ | None => _ end) => destruct o
      end ].
Ltac pres := repeat pres_step.

Lemma get_instr_keeps a i : preserves keeps_branches (get_instr a i).
Proof.
  eapply preserves_weaken; [apply same_core_keeps_branches | apply get_instr_frame].
Qed.
#[local] Hint Resolve get_instr_keeps : pres.

Lemma is_sequential_jump_keeps i a : preserves keeps_branches (is_sequential_jump i a).
Proof. unfold is_sequential_jump. pres. Qed.

Lemma sequential_jump_target_keeps a p :
  preserves keeps_branches (sequential_jump_target a p).
Proof. unfold sequential_jump_target. pres. Qed.

Lemma read_return_stack_keeps i : preserves keeps_branches (read_return_stack i).
Proof. unfold read_return_stack. pres. Qed.

Lemma write_return_stack_keeps i v : preserves keeps_branches (write_return_stack i v).
Proof. unfold write_return_stack. pres. Qed.
#[local] Hint Resolve is_sequential_jump_keeps sequential_jump_target_keeps
  read_return_stack_keeps write_return_stack_keeps : pres.

Lemma shift_return_stack_keeps n : forall i,
  preserves keeps_branches (shift_return_stack n i).
Proof. induction n; intros i; cbn [shift_return_stack]; pres. Qed.
#[local] Hint Resolve shift_return_stack_keeps : pres.

Lemma push_return_stack_keeps a : preserves keeps_branches (push_return_stack a).
Proof. unfold push_return_stack. pres. Qed.

Lemma pop_return_stack_keeps : preserves keeps_branches pop_return_stack.
Proof. unfold pop_return_stack. pres. Qed.

Lemma disseminate_pc_keeps : preserves keeps_branches disseminate_pc.
Proof. unfold disseminate_pc, te_advance_decoded_pc. pres. Qed.
#[local] Hint Resolve push_return_stack_keeps pop_return_stack_keeps
  disseminate_pc_keeps : pres.

Lemma keeps_drains {A} (m : M A) : preserves keeps_branches m -> preserves drains m.
Proof. apply preserves_weaken, keeps_branches_drains. Qed.

Lemma next_pc_drains address : preserves drains (next_pc address).
Proof.
  unfold next_pc.
  repeat first
    [ apply is_taken_branch_drains
    | apply keeps_drains; solve [auto with pres]
    | apply preserves_modify; intros ?; apply keeps_branches_drains; split; reflexivity
    | pres_step ].
Qed.

(** *** The walk *)

Ltac proj_simpl :=
  cbn [pc last_pc address branches branch_map stop_at_last_branch
       inferred_address start_of_trace call_counter return_stack
       instruction_count decoded_cache num_gets num_same num_hits retired
       touch with_pc with_last_pc with_address with_branches with_branch_map
       with_stop_at_last_branch with_inferred_address with_start_of_trace
       with_call_counter with_return_stack with_instruction_count
       with_decoded_cache with_num_gets with_num_same with_num_hits
       with_retired] in *.

Ltac minv_fetch :=
  repeat first
    [ minv1
    | match goal with
      | H : get_instr _ _ _ = Ret _ |- _ =>
          apply get_instr_frame in H; destruct H as (? & ? & ? & ? & ->)
      end ].

Lemma is_branch_at_pc_keeps i : preserves keeps_branches (is_branch_at_pc i).
Proof. unfold is_branch_at_pc. pres. Qed.
#[local] Hint Resolve is_branch_at_pc_keeps : pres.

Lemma follow_execution_path_turn_drains address te_inst previous_address i li :
  preserves drains
    (follow_execution_path_turn address te_inst previous_address i li).
Proof.
  unfold follow_execution_path_turn.
  repeat first
    [ apply next_pc_drains
    | apply keeps_drains; solve [auto with pres]
    | apply preserves_modify; intros ?; apply keeps_branches_drains; split; reflexivity
    | pres_step ].
Qed.

(** Whenever a turn makes [follow_execution_path] return, at most one
    branch bit is left. *)
Lemma follow_execution_path_turn_returns address te_inst previous_address i li d d' :
  follow_execution_path_turn address te_inst previous_address i li d = Ret (None, d') ->
  branches d' <= 1.
Proof.
  unfold follow_execution_path_turn, is_branch_at_pc. intros H.
  minv_fetch; proj_simpl; try discriminate; try lia;
    repeat match goal with
           | H : context [if is_branch ?t then _ else _] |- _ => destruct (is_branch t)
           end; lia.
Qed.

Lemma follow_execution_path_loop_drains fuel :
  forall address te_inst previous_address i li,
    preserves drains
      (follow_execution_path_loop fuel address te_inst previous_address i li).
Proof.
  induction fuel as [|fuel IH]; intros; cbn [follow_execution_path_loop].
  - apply preserves_fail.
  - apply preserves_bind; [typeclasses eauto | apply follow_execution_path_turn_drains |].
    intros [[i' li']|]; [apply IH | apply preserves_ret; typeclasses eauto].
Qed.

Lemma follow_execution_path_loop_returns fuel :
  forall address te_inst previous_address i li d d',
    follow_execution_path_loop fuel address te_inst previous_address i li d
      = Ret (tt, d') ->
    branches d' <= 1.
Proof.
  induction fuel as [|fuel IH]; intros * H; cbn [follow_execution_path_loop] in H.
  - discriminate H.
  - apply bind_inv in H as ([[i' li']|] & d1 & Hturn & H).
    + eapply IH, H.
    + injection H as <-. eapply follow_execution_path_turn_returns, Hturn.
Qed.

Lemma follow_execution_path_drains fuel address te_inst :
  preserves drains (follow_execution_path fuel address te_inst).
Proof.
  unfold follow_execution_path.
  repeat first
    [ apply follow_execution_path_loop_drains
    | apply keeps_drains; solve [auto with pres]
    | pres_step ].
Qed.

Lemma follow_execution_path_returns fuel address te_inst d d' :
  follow_execution_path fuel address te_inst d = Ret (tt, d') ->
  branches d' <= 1.
Proof.
  unfold follow_execution_path. intros H.
  apply bind_inv in H as (? & ? & _ & H).
  apply bind_inv in H as (? & ? & _ & H).
  apply bind_inv in H as (? & ? & _ & H).
  eapply follow_execution_path_loop_returns, H.
Qed.



(** *** Bits of the branch map *)




(** *** Packets *)

Lemma bind_ex_tt {A} (m : M A) (k : A -> M unit) d (P : te_decoder_state_t -> Prop) :
  (exists a d1, m d = Ret (a, d1) /\ exists d', k a d1 = Ret (tt, d') /\ P d') ->
  exists d', bind m k d = Ret (tt, d') /\ P d'.
Proof.
  intros (a & d1 & Hm & d' & Hk & HP). exists d'. split; [|exact HP].
  now rewrite (bind_ret _ _ _ _ _ Hm).
Qed.

(** C7. A format 1 packet that finds at most one branch bit pending (in
    bit 0 of [branch_map]) sets [stop_at_last_branch] exactly when its
    [branches] field is 0, ORs its [branch_map], shifted left by the number
    of pending bits, into the decoder's, and adds its [branches] field to
    [branches], or 31 when that field is 0; the walk then starts from the
    state so updated. *)
Theorem te_inst_format1_dispatch fuel te_inst d :
  te_inst.format te_inst = 1 ->
  start_of_trace d = false ->
  0 <= branches d <= 1 ->
  0 <= branch_map d < 2 ^ branches d ->
  0 <= te_inst.branch_map te_inst < 2 ^ 31 ->
  exists d1,
    te_inst_update te_inst d = Ret (tt, d1) /\
    stop_at_last_branch d1 = (te_inst.branches te_inst =? 0) /\
    branch_map d1 =
      Z.lor (branch_map d)
        (Z.shiftl (te_inst.branch_map te_inst) (branches d)) /\
    branches d1 =
      branches d +
      (if te_inst.branches te_inst =? 0 then 31 else te_inst.branches te_inst) /\
    te_process_te_inst fuel te_inst d =
      follow_execution_path fuel (address d1) te_inst d1.
Proof.
  intros Hfmt Hstart Hb Hm Hpm.
  assert (Hshift : wrap32 (Z.shiftl (te_inst.branch_map te_inst) (branches d))
                   = Z.shiftl (te_inst.branch_map te_inst) (branches d)).
  { unfold wrap32. apply Z.mod_small. rewrite Z.shiftl_mul_pow2 by lia.
    assert (2 ^ branches d <= 2) by
      (assert (branches d = 0 \/ branches d = 1) as [-> | ->] by lia; cbn; lia).
    nia. }
  assert (Hassert :
    ((0 =? branches d) && (0 =? branch_map d)) ||
    ((1 =? branches d) && (0 =? Z.land (branch_map d) (wrap32 (Z.lnot 1)))) = true).
  { assert (branches d = 0 \/ branches d = 1) as [E | E] by lia; rewrite E in *.
    - cbn in Hm. assert (branch_map d = 0) as -> by lia. reflexivity.
    - cbn in Hm. assert (branch_map d = 0 \/ branch_map d = 1) as [-> | ->] by lia;
        reflexivity. }
  assert (Hrun : exists d1,
    te_inst_update te_inst d = Ret (tt, d1) /\
    stop_at_last_branch d1 = (te_inst.branches te_inst =? 0) /\
    branch_map d1 =
      Z.lor (branch_map d)
        (Z.shiftl (te_inst.branch_map te_inst) (branches d)) /\
    branches d1 =
      branches d +
      (if te_inst.branches te_inst =? 0 then 31 else te_inst.branches te_inst)).
  { unfold te_inst_update. mget. rewrite Hstart. cbn [when].
    rewrite (bind_ret (ret tt) _ _ tt d eq_refl).
    rewrite Hfmt. change (2 =? 1) with false. change (1 =? 1) with true.
    cbn [orb when].
    rewrite (Z.eqb_sym 0 (te_inst.branches te_inst)).
    destruct (te_inst.branches te_inst =? 0) eqn:E0; cbn [negb when];
      [|destruct (full_address te_support)];
      repeat (apply bind_ex_tt; eexists tt, _; split; [reflexivity|]);
      (apply bind_ex_tt; eexists _, _; split; [reflexivity|]);
      proj_simpl;
      (apply bind_ex_tt; eexists tt, _; split; [apply assert_true; lia|]);
      (apply bind_ex_tt; eexists tt, _; split; [apply assert_true; exact Hassert|]);
      (apply bind_ex_tt; eexists _, _; split;
       [unfold shl32; destruct ((0 <=? branches d) && (branches d <? 32)) eqn:E;
        [reflexivity|lia]|]);
      (apply bind_ex_tt; eexists tt, _; split; [reflexivity|]);
      (eexists; split; [reflexivity|]);
      proj_simpl; rewrite Hshift; auto. }
  destruct Hrun as (d1 & Hrun & H1 & H2 & H3).
  exists d1. repeat split; auto.
  unfold te_process_te_inst. rewrite Hfmt. change (3 =? 1) with false.
  cbv iota. now rewrite (bind_ret _ _ _ _ _ Hrun).
Qed.




(** *** The decoded cache stays coherent, and a step keeps the flags *)

#[local] Instance keeps_cache_ok_preorder : PreOrder keeps_cache_ok.
Proof. split; [now intros d | intros d1 d2 d3 H1 H2 H; auto]. Qed.

#[local] Instance keeps_flags_preorder : PreOrder keeps_flags.
Proof.
  split.
  - now intros d.
  - intros d1 d2 d3 (A1 & A2 & A3 & A4) (B1 & B2 & B3 & B4).
    repeat split; congruence.
Qed.

Lemma get_instr_keeps_cache_ok a i : preserves keeps_cache_ok (get_instr a i).
Proof.
  intros d i' d' H Hc. unfold get_instr in H. minv; try (intros s; apply Hc).
  intros s. cbn. destruct (s =? TE_SLOT_NUMBER a); [|apply Hc].
  intros _ _. cbn. unfold insn_at.
  match goal with H : te_get_instruction a = _ |- _ => now rewrite H end.
Qed.

Lemma get_instr_keeps_flags a i : preserves keeps_flags (get_instr a i).
Proof.
  intros d i' d' H. apply get_instr_frame in H as (c & n1 & n2 & n3 & ->).
  now repeat split.
Qed.

Ltac modify_frame :=
  apply preserves_modify; intros ?;
  first [ solve [repeat split; reflexivity]
        | solve [let H := fresh in let s := fresh in intros H s; apply H] ].

Ltac frame :=
  repeat first
    [ solve [auto with pres]
    | modify_frame
    | pres_step ].

#[local] Hint Resolve get_instr_keeps_cache_ok get_instr_keeps_flags : pres.

Lemma is_sequential_jump_keeps_cache_ok i a :
  preserves keeps_cache_ok (is_sequential_jump i a).
Proof. unfold is_sequential_jump. frame. Qed.
Lemma is_sequential_jump_keeps_flags i a :
  preserves keeps_flags (is_sequential_jump i a).
Proof. unfold is_sequential_jump. frame. Qed.
Lemma sequential_jump_target_keeps_cache_ok a p :
  preserves keeps_cache_ok (sequential_jump_target a p).
Proof. unfold sequential_jump_target. frame. Qed.
Lemma sequential_jump_target_keeps_flags a p :
  preserves keeps_flags (sequential_jump_target a p).
Proof. unfold sequential_jump_target. frame. Qed.
Lemma read_return_stack_keeps_cache_ok i : preserves keeps_cache_ok (read_return_stack i).
Proof. unfold read_return_stack. frame. Qed.
Lemma read_return_stack_keeps_flags i : preserves keeps_flags (read_return_stack i).
Proof. unfold read_return_stack. frame. Qed.
Lemma write_return_stack_keeps_cache_ok i v :
  preserves keeps_cache_ok (write_return_stack i v).
Proof. unfold write_return_stack. frame. Qed.
Lemma write_return_stack_keeps_flags i v :
  preserves keeps_flags (write_return_stack i v).
Proof. unfold write_return_stack. frame. Qed.
#[local] Hint Resolve is_sequential_jump_keeps_cache_ok is_sequential_jump_keeps_flags
  sequential_jump_target_keeps_cache_ok sequential_jump_target_keeps_flags
  read_return_stack_keeps_cache_ok read_return_stack_keeps_flags
  write_return_stack_keeps_cache_ok write_return_stack_keeps_flags : pres.

Lemma shift_return_stack_keeps_cache_ok n : forall i,
  preserves keeps_cache_ok (shift_return_stack n i).
Proof. induction n; intros i; cbn [shift_return_stack]; frame. Qed.
Lemma shift_return_stack_keeps_flags n : forall i,
  preserves keeps_flags (shift_return_stack n i).
Proof. induction n; intros i; cbn [shift_return_stack]; frame. Qed.
#[local] Hint Resolve shift_return_stack_keeps_cache_ok
  shift_return_stack_keeps_flags : pres.

Lemma push_return_stack_keeps_cache_ok a : preserves keeps_cache_ok (push_return_stack a).
Proof. unfold push_return_stack. frame. Qed.
Lemma push_return_stack_keeps_flags a : preserves keeps_flags (push_return_stack a).
Proof. unfold push_return_stack. frame. Qed.
Lemma pop_return_stack_keeps_cache_ok : preserves keeps_cache_ok pop_return_stack.
Proof. unfold pop_return_stack. frame. Qed.
Lemma pop_return_stack_keeps_flags : preserves keeps_flags pop_return_stack.
Proof. unfold pop_return_stack. frame. Qed.
Lemma disseminate_pc_keeps_cache_ok : preserves keeps_cache_ok disseminate_pc.
Proof. unfold disseminate_pc, te_advance_decoded_pc. frame. Qed.
Lemma disseminate_pc_keeps_flags : preserves keeps_flags disseminate_pc.
Proof. unfold disseminate_pc, te_advance_decoded_pc. frame. Qed.
Lemma is_taken_branch_keeps_cache_ok i : preserves keeps_cache_ok (is_taken_branch i).
Proof. unfold is_taken_branch. frame. Qed.
Lemma is_taken_branch_keeps_flags i : preserves keeps_flags (is_taken_branch i).
Proof. unfold is_taken_branch. frame. Qed.
#[local] Hint Resolve push_return_stack_keeps_cache_ok push_return_stack_keeps_flags
  pop_return_stack_keeps_cache_ok pop_return_stack_keeps_flags
  disseminate_pc_keeps_cache_ok disseminate_pc_keeps_flags
  is_taken_branch_keeps_cache_ok is_taken_branch_keeps_flags : pres.

Lemma next_pc_keeps_cache_ok a : preserves keeps_cache_ok (next_pc a).
Proof. unfold next_pc. frame. Qed.
Lemma next_pc_keeps_flags a : preserves keeps_flags (next_pc a).
Proof. unfold next_pc. frame. Qed.
#[local] Hint Resolve next_pc_keeps_cache_ok next_pc_keeps_flags : pres.

Lemma is_branch_at_pc_keeps_cache_ok i : preserves keeps_cache_ok (is_branch_at_pc i).
Proof. unfold is_branch_at_pc. frame. Qed.
#[local] Hint Resolve is_branch_at_pc_keeps_cache_ok : pres.

Lemma follow_execution_path_turn_keeps_cache_ok address te_inst previous_address i li :
  preserves keeps_cache_ok
    (follow_execution_path_turn address te_inst previous_address i li).
Proof. unfold follow_execution_path_turn. frame. Qed.
#[local] Hint Resolve follow_execution_path_turn_keeps_cache_ok : pres.

Lemma follow_execution_path_loop_keeps_cache_ok fuel :
  forall address te_inst previous_address i li,
    preserves keeps_cache_ok
      (follow_execution_path_loop fuel address te_inst previous_address i li).
Proof.
  induction fuel as [|fuel IH]; intros; cbn [follow_execution_path_loop]; frame.
Qed.
#[local] Hint Resolve follow_execution_path_loop_keeps_cache_ok : pres.

Lemma follow_execution_path_keeps_cache_ok fuel address te_inst :
  preserves keeps_cache_ok (follow_execution_path fuel address te_inst).
Proof. unfold follow_execution_path. frame. Qed.
#[local] Hint Resolve follow_execution_path_keeps_cache_ok : pres.

Lemma te_process_te_inst_keeps_cache_ok fuel te_inst :
  preserves keeps_cache_ok (te_process_te_inst fuel te_inst).
Proof.
  unfold te_process_te_inst, te_inst_format3_update, te_inst_update, shl32. frame.
Qed.

Lemma te_support_loop_keeps_cache_ok fuel : forall previous_address,
  preserves keeps_cache_ok (te_support_loop fuel previous_address).
Proof. induction fuel as [|fuel IH]; intros; cbn [te_support_loop]; frame. Qed.
#[local] Hint Resolve te_support_loop_keeps_cache_ok : pres.

Lemma te_process_te_support_keeps_cache_ok fuel packet :
  preserves keeps_cache_ok (te_process_te_support fuel packet).
Proof. unfold te_process_te_support. frame. Qed.

(** Every state the decoder gets into has a coherent decoded cache. *)
Lemma reachable_cache_ok d : reachable d -> cache_ok d.
Proof.
  induction 1 as [|d fuel te_inst d' _ IH _ Hrun|d fuel packet d' _ IH Hrun].
  - intros s. apply coherent_zeroed.
  - exact (te_process_te_inst_keeps_cache_ok _ _ _ _ _ Hrun IH).
  - exact (te_process_te_support_keeps_cache_ok _ _ _ _ _ Hrun IH).
Qed.



(** *** Stopping on an ambiguous match *)

Ltac run_refl := apply bind_ex; eexists _, _; split; [reflexivity|]; cbv beta iota.
Ltac run_with H := apply bind_ex; eexists _, _; split; [exact H|]; cbv beta iota.

Lemma is_branch_at_pc_ok i d :
  cache_ok d -> coherent i -> fetchable (pc d) = true ->
  exists d',
    is_branch_at_pc i d = Ret ((is_branch (insn_at (pc d)), insn_at (pc d)), d') /\
    same_core d d' /\ cache_ok d'.
Proof.
  intros Hc Hi Hf. unfold is_branch_at_pc. mgets.
  destruct (get_instr_ok (pc d) i d Hf Hi Hc) as (d' & Hget & Hs & Hc').
  exists d'. now rewrite (bind_ret _ _ _ _ _ Hget).
Qed.

Lemma ambiguous_turn address te_inst previous_address instr last_instr d d1 :
  cache_ok d -> coherent instr -> coherent last_instr ->
  stop_at_last_branch d && (0 =? branches d) = false ->
  inferred_address d = false ->
  next_pc address d = Ret (tt, d1) ->
  fetchable (pc d1) = true -> fetchable (last_pc d1) = true ->
  te_inst.format te_inst ≠ 3 ->
  pc d1 = address ->
  te_inst.updiscon te_inst = MSB (te_inst.address te_inst) ->
  branches d1 = (if is_branch (insn_at (pc d1)) then 1 else 0) ->
  is_uninferrable_discon (insn_at (last_pc d1)) = false ->
  ~ (branches d1 = 1 /\ is_branch (insn_at (pc d1)) = true /\
     stop_at_last_branch d1 = true) ->
  exists r,
    follow_execution_path_turn address te_inst previous_address instr last_instr d
      = Ret r /\
    exists c n1 n2 n3,
      r = (None, with_inferred_address true (touch c n1 n2 n3 d1)).
Proof.
  intros Hc Hi Hli Herr Hinf Hnext Hf Hfl Hfmt Hpc Hup Hbr Hdis Hfin.
  pose proof (next_pc_keeps_cache_ok _ _ _ _ Hnext Hc) as Hc1.
  unfold follow_execution_path_turn.
  run_refl. rewrite Herr. cbn [when]. run_refl. rewrite Hinf.
  run_with Hnext. run_refl.
  destruct (get_instr_ok (pc d1) instr d1 Hf Hi Hc1)
    as (d2 & Hget & (c & n1 & n2 & n3 & ->) & Hc2).
  run_with Hget. run_refl. proj_simpl.
  (* the final branch is not what stops the walk *)
  match goal with |- exists r, bind ?m _ ?st = Ret r /\ _ =>
    assert (exists c' k1 k2 k3,
              m st = Ret ((false, insn_at (pc d1)), touch c' k1 k2 k3 d1) /\
              cache_ok (touch c' k1 k2 k3 d1))
      as (c' & k1 & k2 & k3 & Hcheck & Hc3)
  end.
  { destruct (1 =? branches d1) eqn:E1.
    - destruct (is_branch_at_pc_ok (insn_at (pc d1)) (touch c n1 n2 n3 d1))
        as (d3 & Hb & (c' & k1 & k2 & k3 & ->) & Hc3);
        [exact Hc2 | apply coherent_insn_at | exact Hf |].
      exists c', k1, k2, k3. split; [|exact Hc3].
      rewrite (bind_ret _ _ _ _ _ Hb). proj_simpl. cbv beta iota. mget. proj_simpl.
      unfold ret. do 3 f_equal.
      destruct (is_branch (insn_at (pc d1))) eqn:Eb; [|reflexivity].
      destruct (stop_at_last_branch d1) eqn:Es; [|reflexivity].
      exfalso. apply Hfin. repeat split; lia.
    - exists c, n1, n2, n3. split; [reflexivity|exact Hc2]. }
  run_with Hcheck. run_refl. proj_simpl.
  rewrite Hpc, Z.eqb_refl.
  destruct (get_instr_ok (last_pc d1) last_instr (touch c' k1 k2 k3 d1) Hfl Hli Hc3)
    as (d4 & Hgl & (c4 & j1 & j2 & j3 & ->) & Hc4).
  apply bind_ex. eexists (false, insn_at (last_pc d1)), _. split.
  { rewrite (bind_ret _ _ _ _ _ Hgl). now rewrite Hdis. }
  cbv beta iota. run_refl. proj_simpl.
  rewrite Hpc, Z.eqb_refl.
  destruct (3 =? te_inst.format te_inst) eqn:E3; [lia|].
  rewrite bool_decide_eq_true_2 by exact Hup. cbn [negb andb].
  destruct (is_branch_at_pc_ok (insn_at address)
              (touch c4 j1 j2 j3 (touch c' k1 k2 k3 d1)))
    as (d5 & Hb & (c5 & i1 & i2 & i3 & ->) & Hc5);
    [exact Hc4 | apply coherent_insn_at | exact Hf |].
  proj_simpl. rewrite Hpc in Hb.
  apply bind_ex. eexists (true, insn_at address), _. split.
  { rewrite (bind_ret _ _ _ _ _ Hb). cbv beta iota. unfold ret. do 3 f_equal.
    rewrite Hpc in Hbr. rewrite Hbr. apply Z.eqb_refl. }
  cbv beta iota. run_refl.
  eexists. split; [reflexivity|].
  now exists c5, i1, i2, i3.
Qed.

Lemma inferred_turn address te_inst previous_address instr last_instr d d1 :
  cache_ok d -> coherent instr ->
  stop_at_last_branch d && (0 =? branches d) = false ->
  inferred_address d = true ->
  next_pc previous_address d = Ret (tt, d1) ->
  fetchable (pc d1) = true ->
  exists c n1 n2 n3,
    follow_execution_path_turn address te_inst previous_address instr last_instr d
      = Ret (Some (insn_at (pc d1), last_instr),
             with_inferred_address (negb (pc d1 =? previous_address))
               (touch c n1 n2 n3 d1)).
Proof.
  intros Hc Hi Herr Hinf Hnext Hf.
  pose proof (next_pc_keeps_cache_ok _ _ _ _ Hnext Hc) as Hc1.
  destruct (next_pc_keeps_flags _ _ _ _ Hnext) as (_ & _ & Hinf1 & _).
  rewrite Hinf in Hinf1.
  destruct (get_instr_ok (pc d1) instr d1 Hf Hi Hc1)
    as (d2 & Hget & (c & n1 & n2 & n3 & ->) & Hc2).
  exists c, n1, n2, n3.
  unfold follow_execution_path_turn.
  mget. rewrite Herr. cbn [when]. rewrite (bind_ret (ret tt) _ _ tt d eq_refl).
  rewrite Hinf. rewrite (bind_ret _ _ _ _ _ Hnext). mgets.
  rewrite (bind_ret _ _ _ _ _ Hget). mget. proj_simpl.
  destruct (pc d1 =? previous_address); cbn [when negb].
  - reflexivity.
  - unfold bind, ret. do 2 f_equal. destruct d1. cbn in *. now rewrite Hinf1.
Qed.

(** C3 (amended). In [follow_execution_path] for a packet whose format is
    not 3: when a step taken with [inferred_address] clear ends with the pc
    at the reported address, [updiscon] equal to the most significant bit of
    the packet's address, as many branch bits pending as the instruction at
    pc is a branch (1 or 0), the previous instruction not an uninferrable
    discontinuity, and the walk not stopping there for the last branch
    ([stop_at_last_branch] set with one bit pending at a branch), the walk
    sets [inferred_address] and returns with that pc.  A walk entered with
    [inferred_address] set takes its steps towards the pc it was entered
    with, and after each of them [inferred_address] is clear exactly when
    the pc is that address again; such a turn does not return. *)
Theorem follow_execution_path_ambiguous_match :
  (forall fuel address te_inst previous_address instr last_instr d d1,
     cache_ok d -> coherent instr -> coherent last_instr ->
     stop_at_last_branch d && (0 =? branches d) = false ->
     inferred_address d = false ->
     next_pc address d = Ret (tt, d1) ->
     fetchable (pc d1) = true -> fetchable (last_pc d1) = true ->
     te_inst.format te_inst ≠ 3 ->
     pc d1 = address ->
     te_inst.updiscon te_inst = MSB (te_inst.address te_inst) ->
     branches d1 = (if is_branch (insn_at (pc d1)) then 1 else 0) ->
     is_uninferrable_discon (insn_at (last_pc d1)) = false ->
     ~ (branches d1 = 1 /\ is_branch (insn_at (pc d1)) = true /\
        stop_at_last_branch d1 = true) ->
     exists d2,
       follow_execution_path_loop (S fuel) address te_inst previous_address
         instr last_instr d = Ret (tt, d2) /\
       inferred_address d2 = true /\ pc d2 = pc d1) /\
  (forall address te_inst previous_address instr last_instr d d1,
     cache_ok d -> coherent instr ->
     stop_at_last_branch d && (0 =? branches d) = false ->
     inferred_address d = true ->
     next_pc previous_address d = Ret (tt, d1) ->
     fetchable (pc d1) = true ->
     exists d2,
       follow_execution_path_turn address te_inst previous_address
         instr last_instr d = Ret (Some (insn_at (pc d1), last_instr), d2) /\
       pc d2 = pc d1 /\
       inferred_address d2 = negb (pc d1 =? previous_address)) /\
  (forall fuel address te_inst d,
     follow_execution_path fuel address te_inst d =
       (assert (negb (stop_at_last_branch d) ||
                (1 =? branches d) || (2 =? branches d) ||
                (31 =? branches d) || (32 =? branches d)) ;;
        let* instr := get_instr (pc d) sentinel_instr in
        follow_execution_path_loop fuel address te_inst (pc d)
          instr sentinel_instr) d).
Proof.
  split; [|split].
  - intros fuel address te_inst previous_address instr last_instr d d1
      Hc Hi Hli Herr Hinf Hnext Hf Hfl Hfmt Hpc Hup Hbr Hdis Hfin.
    destruct (ambiguous_turn address te_inst previous_address instr last_instr
                d d1 Hc Hi Hli Herr Hinf Hnext Hf Hfl Hfmt Hpc Hup Hbr Hdis Hfin)
      as (r & Hturn & c & n1 & n2 & n3 & ->).
    eexists. split; [|split].
    + cbn [follow_execution_path_loop]. rewrite (bind_ret _ _ _ _ _ Hturn).
      reflexivity.
    + reflexivity.
    + reflexivity.
  - intros address te_inst previous_address instr last_instr d d1
      Hc Hi Herr Hinf Hnext Hf.
    destruct (inferred_turn address te_inst previous_address instr last_instr
                d d1 Hc Hi Herr Hinf Hnext Hf) as (c & n1 & n2 & n3 & Hturn).
    eexists. split; [exact Hturn|]. split; reflexivity.
  - reflexivity.
Qed.

Lemma cache_ok_zeroed d :
  decoded_cache d = (fun _ => zeroed_instr) -> cache_ok d.
Proof. intros H s. rewrite H. apply coherent_zeroed. Qed.

(** ** Further properties *)

(** *** What a returning call has done *)

Lemma get_instr_result a i d i' d' :
  get_instr a i d = Ret (i', d') ->
  a ≠ SENTINEL_BAD_ADDRESS /\
  (rv.pc (insn.decode i) ≠ a -> rv.pc (insn.decode i') = a) /\
  (cache_ok d -> coherent i -> coherent i' /\ cache_ok d') /\
  same_core d d'.
Proof.
  intros H. pose proof (get_instr_frame _ _ _ _ _ H) as Hs.
  pose proof (get_instr_keeps_cache_ok _ _ _ _ _ H) as Hk.
  unfold get_instr in H. minv; proj_simpl;
    (split; [lia|split; [intros; cbn; lia|split; [|exact Hs]]]);
    intros Hc Hi; (split; [|exact (Hk Hc)]); auto.
  intros _ _. cbn. unfold insn_at.
  match goal with H : te_get_instruction a = _ |- _ => now rewrite H end.
Qed.

Lemma disseminate_pc_inv d d' :
  disseminate_pc d = Ret (tt, d') ->
  exists i c n1 n2 n3,
    d' = with_instruction_count (wrap64 (instruction_count d + 1))
           (with_retired
              (retired d ++ [Build_retirement (last_pc d) (pc d) i])
              (touch c n1 n2 n3 d)) /\
    pc d ≠ SENTINEL_BAD_ADDRESS /\ last_pc d ≠ pc d /\
    (instruction_count d = 0 <-> last_pc d = SENTINEL_BAD_ADDRESS) /\
    rv.pc (insn.decode i) = pc d /\
    (cache_ok d -> coherent i /\ cache_ok d').
Proof.
  intros H. unfold disseminate_pc, te_advance_decoded_pc in H. minv.
  all: match goal with
       | H : get_instr _ _ _ = Ret (?i, _) |- _ =>
           apply get_instr_result in H;
           destruct H as (HS & Hpc & Hco & (c & n1 & n2 & n3 & ->));
           exists i, c, n1, n2, n3
       end.
  all: split; [reflexivity|]; split; [exact HS|]; split; [lia|]; split; [lia|].
  all: split; [apply Hpc; cbn; auto|].
  all: intros Hc; destruct (Hco Hc coherent_sentinel) as [Hi Hc']; split; [exact Hi|];
    intros s; apply Hc'.
Qed.

Lemma read_return_stack_inv i d v d' :
  read_return_stack i d = Ret (v, d') ->
  d' = d /\ 0 <= i /\ return_stack d !! Z.to_nat i = Some v.
Proof. unfold read_return_stack. intros H. minv. auto with lia. Qed.

Lemma pop_return_stack_inv d v d' :
  pop_return_stack d = Ret (v, d') ->
  d' = with_call_counter (wrap64 (call_counter d - 1)) d /\
  0 <= call_counter d /\
  return_stack d !! Z.to_nat (call_counter d) = Some v.
Proof.
  unfold pop_return_stack. intros H. minv.
  match goal with
  | H : read_return_stack _ _ = Ret _ |- _ =>
      apply read_return_stack_inv in H; destruct H as (-> & ? & ?)
  end.
  auto.
Qed.

Lemma write_return_stack_inv i v d d' :
  write_return_stack i v d = Ret (tt, d') ->
  d' = with_return_stack (<[Z.to_nat i := v]> (return_stack d)) d /\
  0 <= i < Z.of_nat (length (return_stack d)).
Proof. unfold write_return_stack. intros H. minv. split; [reflexivity|lia]. Qed.

Lemma shift_return_stack_inv n : forall i d d',
  shift_return_stack n i d = Ret (tt, d') ->
  exists rs, d' = with_return_stack rs d /\ length rs = length (return_stack d).
Proof.
  induction n as [|n IH]; intros i d d' H; cbn [shift_return_stack] in H.
  - injection H as <-. exists (return_stack d). split; [now destruct d|reflexivity].
  - minv.
    match goal with H : read_return_stack _ _ = _ |- _ =>
      apply read_return_stack_inv in H as (-> & _ & _) end.
    match goal with H : write_return_stack _ _ _ = _ |- _ =>
      apply write_return_stack_inv in H as (-> & _) end.
    apply IH in H as (rs & -> & Hl). exists rs. split; [reflexivity|].
    rewrite Hl. cbn. apply length_insert.
Qed.

(** A push that returns leaves between 1 and [call_counter_max] links. *)
Lemma push_return_stack_inv a d d' :
  push_return_stack a d = Ret (tt, d') ->
  same_but_stack d d' /\
  length (return_stack d') = length (return_stack d) /\
  0 < call_counter d' <= call_counter_max /\
  (cache_ok d -> cache_ok d').
Proof.
  intros H. pose proof (push_return_stack_keeps_cache_ok _ _ _ _ H) as Hk.
  unfold push_return_stack in H. minv.
  all: repeat match goal with
       | H : shift_return_stack _ _ _ = _ |- _ =>
           apply shift_return_stack_inv in H as (rs & -> & Hl)
       | H : get_instr _ _ _ = _ |- _ =>
           apply get_instr_frame in H as (c & n1 & n2 & n3 & ->)
       | H : write_return_stack _ _ _ = _ |- _ =>
           apply write_return_stack_inv in H as (-> & Hw)
       end.
  all: proj_simpl; split; [same_but_stack_tac|]; split;
    [cbn; rewrite length_insert; auto|]; split; [cbn; lia|exact Hk].
Qed.

Lemma is_sequential_jump_frame i a : preserves same_core (is_sequential_jump i a).
Proof.
  unfold is_sequential_jump.
  repeat first [apply get_instr_frame | pres_step].
Qed.

Lemma sequential_jump_target_frame a p :
  preserves same_core (sequential_jump_target a p).
Proof.
  unfold sequential_jump_target.
  repeat first [apply get_instr_frame | pres_step].
Qed.

Lemma call_counter_max_bound : 0 <= call_counter_max < 2 ^ 32.
Proof. unfold call_counter_max, wrap32. apply Z.mod_pos_bound. lia. Qed.

(** Taking apart a returning computation that calls the functions above:
    every state met is written out over the first one. *)
Ltac inv_call :=
  match goal with
  | H : get_instr _ _ _ = Ret _ |- _ =>
      let HS := fresh "HS" in
      let Hpc := fresh "Hpc" in
      let Hco := fresh "Hco" in
      apply get_instr_result in H;
      destruct H as (HS & Hpc & Hco & (? & ? & ? & ? & ->))
  | H : is_sequential_jump _ _ _ = Ret _ |- _ =>
      let Hk := fresh "Hk" in
      pose proof (is_sequential_jump_keeps_cache_ok _ _ _ _ _ H) as Hk;
      apply is_sequential_jump_frame in H; destruct H as (? & ? & ? & ? & ->)
  | H : sequential_jump_target _ _ _ = Ret _ |- _ =>
      let Hk := fresh "Hk" in
      pose proof (sequential_jump_target_keeps_cache_ok _ _ _ _ _ H) as Hk;
      apply sequential_jump_target_frame in H; destruct H as (? & ? & ? & ? & ->)
  | H : is_taken_branch _ _ = Ret _ |- _ => rewrite is_taken_branch_eq in H
  | H : (if ?b then _ else _) = Ret _ |- _ => destruct b eqn:?
  | H : Fail _ = Ret _ |- _ => discriminate H
  | H : pop_return_stack _ = Ret _ |- _ =>
      apply pop_return_stack_inv in H; destruct H as (-> & ? & ?)
  | H : read_return_stack _ _ = Ret _ |- _ =>
      apply read_return_stack_inv in H; destruct H as (-> & ? & ?)
  | H : push_return_stack _ _ = Ret _ |- _ =>
      let Hl := fresh "Hl" in
      let Hb := fresh "Hb" in
      let Hk := fresh "Hk" in
      apply push_return_stack_inv in H;
      destruct H as ((? & ? & ? & ? & ? & ? & ->) & Hl & Hb & Hk)
  | H : disseminate_pc _ = Ret _ |- _ =>
      let Hd := fresh "Hd" in
      apply disseminate_pc_inv in H;
      destruct H as (? & ? & ? & ? & ? & -> & Hd)
  end.
Ltac minv_calls := repeat first [minv1 | inv_call].

(** Coherence of the decoded cache, from one state to the next. *)
Ltac chain_cache :=
  repeat match goal with
         | Hk : (forall s, coherent (?c s)) -> _, H : forall s, coherent (?c s) |- _ =>
             specialize (Hk H)
         | Hk : coherent sentinel_instr -> _ |- _ =>
             specialize (Hk coherent_sentinel)
         | H : _ /\ _ |- _ => destruct H
         end;
  try assumption.

Lemma next_pc_inv address d d' :
  next_pc address d = Ret (tt, d') ->
  (exists i,
     retired d' = retired d ++ [Build_retirement (pc d) (pc d') i] /\
     rv.pc (insn.decode i) = pc d' /\ (cache_ok d -> coherent i)) /\
  last_pc d' = pc d /\ pc d' ≠ pc d /\
  pc d' ≠ SENTINEL_BAD_ADDRESS /\ pc d ≠ SENTINEL_BAD_ADDRESS /\
  instruction_count d ≠ 0 /\
  instruction_count d' = wrap64 (instruction_count d + 1) /\
  length (return_stack d') = length (return_stack d) /\
  (0 <= call_counter d <= call_counter_max ->
   0 <= call_counter d' <= call_counter_max).
Proof.
  intros H. unfold next_pc in H. minv_calls.
  all: destruct Hd as (Hd1 & Hd2 & Hd3 & Hd4 & Hd5).
  all: try match goal with
       | H : is_implicit_return _ _ = true |- _ =>
           apply is_implicit_return_inv in H; destruct H as (_ & Hpos & _)
       end.
  all: pose proof call_counter_max_bound as Hmax.
  all: unfold keeps_cache_ok, cache_ok in *; proj_simpl.
  all: split;
    [eexists; split; [reflexivity|]; split; [exact Hd4|]; intros Hc; chain_cache|].
  all: repeat match goal with
       | |- _ /\ _ => split
       end; try assumption; try lia; try congruence.
  all: try (cbn; rewrite ?length_insert; lia).
  intros Hcc. clear - Hcc Hpos Hmax. unfold wrap64. rewrite Z.mod_small; lia.
Qed.


(** *** Walks *)

Lemma chained_app rs1 : forall from rs2,
  chained from (rs1 ++ rs2) <->
  chained from rs1 /\ chained (trace_end from rs1) rs2.
Proof.
  induction rs1 as [|r rs1 IH]; intros from rs2; cbn; [tauto|].
  rewrite IH. tauto.
Qed.

Lemma trace_end_app rs1 : forall from rs2,
  trace_end from (rs1 ++ rs2) = trace_end (trace_end from rs1) rs2.
Proof. induction rs1 as [|r rs1 IH]; intros from rs2; cbn; auto. Qed.

Lemma chained_new_pc rs : forall from,
  chained from rs -> Forall (fun r => new_pc r ≠ SENTINEL_BAD_ADDRESS) rs.
Proof.
  induction rs as [|r rs IH]; intros from H; constructor.
  - apply H.
  - eapply IH, H.
Qed.

Lemma trace_end_sentinel rs : forall from,
  chained from rs ->
  (trace_end from rs = SENTINEL_BAD_ADDRESS <-> from = SENTINEL_BAD_ADDRESS /\ rs = []).
Proof.
  induction rs as [|r rs IH]; intros from H; cbn.
  - tauto.
  - destruct H as (_ & _ & Hs & H). rewrite (IH _ H).
    split; [tauto | intros [_ [=]]].
Qed.

#[local] Instance walked_preorder : PreOrder walked.
Proof.
  split.
  - intros d. exists []. rewrite app_nil_r. cbn.
    split; [reflexivity|]. split; [exact I|]. split; [reflexivity|].
    split; [|auto].
    intros H. unfold wrap64. rewrite Z.add_0_r, Z.mod_small; lia.
  - intros d1 d2 d3 (rs1 & A1 & A2 & A3 & A4 & A5 & A6 & A7)
      (rs2 & B1 & B2 & B3 & B4 & B5 & B6 & B7).
    exists (rs1 ++ rs2). rewrite B1, A1, <- app_assoc.
    split; [reflexivity|]. rewrite chained_app, trace_end_app, A3.
    split; [auto|]. split; [exact B3|]. split; [|split; [congruence|split; [auto|]]].
    + intros H. rewrite B4, (A4 H).
      * unfold wrap64. rewrite Zplus_mod_idemp_l, length_app. f_equal. lia.
      * rewrite (A4 H). unfold wrap64. apply Z.mod_pos_bound. lia.
    + intros Hc. destruct (A7 Hc) as [Hc2 F1]. destruct (B7 Hc2) as [Hc3 F2].
      split; [exact Hc3 | now apply Forall_app].
Qed.

#[local] Instance keeps_address_preorder : PreOrder keeps_address.
Proof.
  split.
  - now intros d.
  - intros d1 d2 d3 [A1 A2] [B1 B2]. split; congruence.
Qed.

Lemma unmoved_walked d d' :
  pc d' = pc d -> retired d' = retired d ->
  instruction_count d' = instruction_count d ->
  return_stack d' = return_stack d -> call_counter d' = call_counter d ->
  (cache_ok d -> cache_ok d') ->
  walked d d'.
Proof.
  intros H1 H2 H3 H4 H5 H6. exists []. rewrite app_nil_r, H3, H4, H5. cbn.
  split; [exact H2|]. split; [exact I|]. split; [auto|].
  split; [|split; [reflexivity|split; [auto|auto]]].
  intros H. unfold wrap64. rewrite Z.add_0_r, Z.mod_small; lia.
Qed.

(** What touches the decoded cache only, and keeps it coherent, has
    walked nowhere. *)
Lemma walked_of_frames {A} (m : M A) :
  preserves same_core m -> preserves keeps_cache_ok m -> preserves walked m.
Proof.
  intros Hs Hk d a d' H. pose proof (Hk _ _ _ H) as Hc.
  apply Hs in H as (c & n1 & n2 & n3 & ->).
  now apply unmoved_walked.
Qed.

Lemma keeps_flags_address d d' : keeps_flags d d' -> keeps_address d d'.
Proof. intros (A1 & _ & _ & A4). now split. Qed.

Lemma get_instr_walked a i : preserves walked (get_instr a i).
Proof.
  apply walked_of_frames; [apply get_instr_frame | apply get_instr_keeps_cache_ok].
Qed.

Lemma get_instr_keeps_address a i : preserves keeps_address (get_instr a i).
Proof.
  eapply preserves_weaken; [apply keeps_flags_address | apply get_instr_keeps_flags].
Qed.

Lemma next_pc_walked a : preserves walked (next_pc a).
Proof.
  intros d [] d' H. pose proof (next_pc_keeps_cache_ok _ _ _ _ H) as Hk.
  apply next_pc_inv in H
    as ((i & Hr & Hi & Hco) & _ & Hne & Hs & _ & _ & Hic & Hl & Hcc).
  exists [Build_retirement (pc d) (pc d') i]. cbn.
  split; [exact Hr|]. split; [auto|]. split; [reflexivity|].
  split; [auto|]. split; [exact Hl|]. split; [exact Hcc|].
  intros Hc. split; [exact (Hk Hc)|]. constructor; [|constructor].
  split; [exact Hi | exact (Hco Hc)].
Qed.

Lemma next_pc_keeps_address a : preserves keeps_address (next_pc a).
Proof.
  eapply preserves_weaken; [apply keeps_flags_address | apply next_pc_keeps_flags].
Qed.
#[local] Hint Resolve get_instr_walked get_instr_keeps_address
  next_pc_walked next_pc_keeps_address : pres.

(** A change of a flag, of the reported address or of the branch map
    walks nowhere. *)
Ltac walk_modify :=
  apply preserves_modify; intros ?; apply unmoved_walked;
  solve [reflexivity | let H := fresh in let s := fresh in intros H s; apply H].

Ltac walk :=
  repeat first
    [ solve [auto with pres]
    | walk_modify
    | modify_frame
    | pres_step ].

Lemma is_branch_at_pc_walked i : preserves walked (is_branch_at_pc i).
Proof. unfold is_branch_at_pc. walk. Qed.

Lemma is_branch_at_pc_keeps_address i : preserves keeps_address (is_branch_at_pc i).
Proof. unfold is_branch_at_pc. walk. Qed.
#[local] Hint Resolve is_branch_at_pc_walked is_branch_at_pc_keeps_address : pres.

Lemma follow_execution_path_turn_walked address te_inst previous_address i li :
  preserves walked
    (follow_execution_path_turn address te_inst previous_address i li).
Proof. unfold follow_execution_path_turn. walk. Qed.

Lemma follow_execution_path_turn_keeps_address address te_inst previous_address i li :
  preserves keeps_address
    (follow_execution_path_turn address te_inst previous_address i li).
Proof. unfold follow_execution_path_turn. walk. Qed.
#[local] Hint Resolve follow_execution_path_turn_walked
  follow_execution_path_turn_keeps_address : pres.

Lemma follow_execution_path_loop_walked fuel :
  forall address te_inst previous_address i li,
    preserves walked
      (follow_execution_path_loop fuel address te_inst previous_address i li).
Proof.
  induction fuel as [|fuel IH]; intros; cbn [follow_execution_path_loop]; walk.
Qed.

Lemma follow_execution_path_loop_keeps_address fuel :
  forall address te_inst previous_address i li,
    preserves keeps_address
      (follow_execution_path_loop fuel address te_inst previous_address i li).
Proof.
  induction fuel as [|fuel IH]; intros; cbn [follow_execution_path_loop]; walk.
Qed.
#[local] Hint Resolve follow_execution_path_loop_walked
  follow_execution_path_loop_keeps_address : pres.

Lemma follow_execution_path_walked fuel address te_inst :
  preserves walked (follow_execution_path fuel address te_inst).
Proof. unfold follow_execution_path. walk. Qed.

Lemma follow_execution_path_keeps_address fuel address te_inst :
  preserves keeps_address (follow_execution_path fuel address te_inst).
Proof. unfold follow_execution_path. walk. Qed.
#[local] Hint Resolve follow_execution_path_walked
  follow_execution_path_keeps_address : pres.

Lemma te_support_loop_walked fuel : forall previous_address,
  preserves walked (te_support_loop fuel previous_address).
Proof. induction fuel as [|fuel IH]; intros; cbn [te_support_loop]; walk. Qed.
#[local] Hint Resolve te_support_loop_walked : pres.

Lemma te_process_te_support_walked fuel packet :
  preserves walked (te_process_te_support fuel packet).
Proof. unfold te_process_te_support. walk. Qed.


(** The synchronisation of a format 3 packet retires one instruction,
    from the pc it finds to the reported address. *)
Lemma synchronise_inv d d' :
  (modify (fun d => with_last_pc (pc d) d) ;;
   modify (fun d => with_pc (address d) d) ;;
   disseminate_pc ;;
   modify (fun d => with_last_pc (pc d) d)) d = Ret (tt, d') ->
  exists i c n1 n2 n3,
    d' = with_last_pc (address d)
           (with_instruction_count (wrap64 (instruction_count d + 1))
              (with_retired
                 (retired d ++ [Build_retirement (pc d) (address d) i])
                 (touch c n1 n2 n3 (with_pc (address d) d)))) /\
    address d ≠ SENTINEL_BAD_ADDRESS /\ pc d ≠ address d /\
    (instruction_count d = 0 <-> pc d = SENTINEL_BAD_ADDRESS) /\
    rv.pc (insn.decode i) = address d /\
    (cache_ok d -> coherent i /\ cache_ok d').
Proof.
  intros H. minv_calls. proj_simpl.
  destruct Hd as (Hd1 & Hd2 & Hd3 & Hd4 & Hd5).
  eexists _, _, _, _, _. split; [reflexivity|].
  repeat match goal with
         | |- _ /\ _ => split
         end; auto.
Qed.

Lemma synchronise_walked :
  preserves walked
    (modify (fun d => with_last_pc (pc d) d) ;;
     modify (fun d => with_pc (address d) d) ;;
     disseminate_pc ;;
     modify (fun d => with_last_pc (pc d) d)).
Proof.
  intros d [] d' H.
  apply synchronise_inv in H
    as (i & c & n1 & n2 & n3 & -> & Hs & Hne & _ & Hi & Hco).
  exists [Build_retirement (pc d) (address d) i]. cbn.
  split; [reflexivity|]. split; [auto|]. split; [reflexivity|].
  split; [auto|]. split; [reflexivity|]. split; [auto|].
  intros Hc. destruct (Hco Hc) as [Hci Hc']. split; [exact Hc'|].
  constructor; [|constructor]. now split.
Qed.

Lemma synchronise_keeps_address :
  preserves keeps_address
    (modify (fun d => with_last_pc (pc d) d) ;;
     modify (fun d => with_pc (address d) d) ;;
     disseminate_pc ;;
     modify (fun d => with_last_pc (pc d) d)).
Proof.
  intros d [] d' H.
  apply synchronise_inv in H as (i & c & n1 & n2 & n3 & -> & _).
  now split.
Qed.

Lemma reset_call_counter_walked : preserves walked (modify (with_call_counter 0)).
Proof.
  apply preserves_modify. intros d. exists []. rewrite app_nil_r. cbn.
  pose proof call_counter_max_bound.
  split; [reflexivity|]. split; [exact I|]. split; [reflexivity|].
  split; [|split; [reflexivity|split; [lia|auto]]].
  intros H'. unfold wrap64. rewrite Z.add_0_r, Z.mod_small; lia.
Qed.
#[local] Hint Resolve synchronise_walked reset_call_counter_walked : pres.

Lemma te_process_te_inst_walked fuel te_inst :
  preserves walked (te_process_te_inst fuel te_inst).
Proof.
  unfold te_process_te_inst, te_inst_format3_update, te_inst_update, shl32. walk.
Qed.

(** Every state the decoder gets into has been walked to from the opened
    decoder. *)
Lemma reached_walked d : reached d -> walked te_open_trace_decoder d.
Proof.
  induction 1 as [|d fuel te_inst d' _ IH Hrun|d fuel packet d' _ IH Hrun].
  - reflexivity.
  - etransitivity; [exact IH|]. exact (te_process_te_inst_walked _ _ _ _ _ Hrun).
  - etransitivity; [exact IH|]. exact (te_process_te_support_walked _ _ _ _ _ Hrun).
Qed.

Lemma reachable_reached d : reachable d -> reached d.
Proof.
  induction 1 as [|d fuel te_inst d' _ IH _ Hrun|d fuel packet d' _ IH Hrun].
  - constructor.
  - econstructor 2; eauto.
  - econstructor 3; eauto.
Qed.

Lemma reached_cache_ok d : reached d -> cache_ok d.
Proof.
  intros H. apply reached_walked in H as (rs & _ & _ & _ & _ & _ & _ & H).
  apply H. intros s. apply coherent_zeroed.
Qed.


(** *** Where the walk stops *)

Ltac bool_hyps :=
  repeat match goal with
         | H : _ && _ = true |- _ => apply andb_true_iff in H as [? ?]
         | H : negb _ = true |- _ => apply negb_true_iff in H
         | H : (_ =? _) = true |- _ => apply Z.eqb_eq in H
         | H : (_ =? _) = false |- _ => apply Z.eqb_neq in H
         | H : bool_decide _ = true |- _ => apply bool_decide_eq_true in H
         end.

Lemma follow_execution_path_turn_stops address te_inst previous_address i li d d' :
  follow_execution_path_turn address te_inst previous_address i li d
    = Ret (None, d') ->
  inferred_address d = false /\
  (pc d' = address /\ stop_at_last_branch d' = stop_at_last_branch d \/
   stop_at_last_branch d = true /\ stop_at_last_branch d' = false /\
   branches d' = 1 /\ inferred_address d' = false) /\
  (inferred_address d' = true ->
   pc d' = address /\ te_inst.format te_inst ≠ 3 /\
   te_inst.updiscon te_inst = MSB (te_inst.address te_inst)).
Proof.
  unfold follow_execution_path_turn, is_branch_at_pc. intros H.
  minv_fetch; proj_simpl; try discriminate.
  all: match goal with
       | H : next_pc _ _ = Ret _ |- _ =>
           apply next_pc_keeps_flags in H as (Ha & Hs & Hi & Hst)
       end.
  all: proj_simpl; bool_hyps.
  all: split; [congruence|].
  all: split;
    [ first [ left; split; [lia|congruence]
            | right; repeat split; first [congruence | lia] ]
    | intros Ht;
      first [ discriminate Ht
            | congruence
            | split; [lia|split; [lia|assumption]] ] ].
Qed.

Lemma follow_execution_path_turn_continues address te_inst previous_address i li d r d' :
  follow_execution_path_turn address te_inst previous_address i li d
    = Ret (Some r, d') ->
  stop_at_last_branch d' = stop_at_last_branch d.
Proof.
  unfold follow_execution_path_turn, is_branch_at_pc. intros H.
  minv_fetch; proj_simpl; try discriminate.
  all: match goal with
       | H : next_pc _ _ = Ret _ |- _ =>
           apply next_pc_keeps_flags in H as (Ha & Hs & Hi & Hst)
       end.
  all: proj_simpl; congruence.
Qed.

(** Every turn retires at least one instruction. *)
Lemma follow_execution_path_turn_retires address te_inst previous_address i li d r d' :
  follow_execution_path_turn address te_inst previous_address i li d
    = Ret (r, d') ->
  (length (retired d) < length (retired d'))%nat.
Proof.
  unfold follow_execution_path_turn. intros H.
  apply bind_inv in H as (d0 & d0' & E & H). cbv [get] in E.
  injection E as <- <-.
  apply bind_inv in H as ([] & d0 & E & H). unfold when in E.
  destruct (_ && _); [discriminate E|]. cbv [ret] in E. injection E as <-.
  destruct (inferred_address d).
  all: apply bind_inv in H as ([] & d1 & Hn & H).
  all: apply next_pc_inv in Hn as ((i1 & Hr & _) & _).
  all: match type of H with
       | ?m _ = Ret _ =>
           assert (Hw : preserves walked m) by walk;
           apply Hw in H as (rs & -> & _)
       end.
  all: rewrite Hr, !length_app; cbn; lia.
Qed.

Lemma follow_execution_path_loop_stops fuel :
  forall address te_inst previous_address i li d d',
    follow_execution_path_loop fuel address te_inst previous_address i li d
      = Ret (tt, d') ->
    (pc d' = address /\ stop_at_last_branch d' = stop_at_last_branch d \/
     stop_at_last_branch d = true /\ stop_at_last_branch d' = false /\
     branches d' = 1 /\ inferred_address d' = false) /\
    (inferred_address d' = true ->
     pc d' = address /\ te_inst.format te_inst ≠ 3 /\
     te_inst.updiscon te_inst = MSB (te_inst.address te_inst)) /\
    (length (retired d) < length (retired d'))%nat.
Proof.
  induction fuel as [|fuel IH]; intros * H; cbn [follow_execution_path_loop] in H.
  - discriminate H.
  - apply bind_inv in H as ([[i' li']|] & d1 & Hturn & H).
    + pose proof (follow_execution_path_turn_continues _ _ _ _ _ _ _ _ Hturn) as Hs.
      pose proof (follow_execution_path_turn_retires _ _ _ _ _ _ _ _ Hturn) as Hl.
      apply IH in H as (H1 & H2 & H3). rewrite Hs in H1.
      split; [exact H1|]. split; [exact H2|lia].
    + injection H as <-.
      pose proof (follow_execution_path_turn_retires _ _ _ _ _ _ _ _ Hturn) as Hl.
      apply follow_execution_path_turn_stops in Hturn as (_ & H1 & H2).
      auto.
Qed.

Lemma follow_execution_path_stops fuel address te_inst d d' :
  follow_execution_path fuel address te_inst d = Ret (tt, d') ->
  (pc d' = address /\ stop_at_last_branch d' = stop_at_last_branch d \/
   stop_at_last_branch d = true /\ stop_at_last_branch d' = false /\
   branches d' = 1 /\ inferred_address d' = false) /\
  (inferred_address d' = true ->
   pc d' = address /\ te_inst.format te_inst ≠ 3 /\
   te_inst.updiscon te_inst = MSB (te_inst.address te_inst)) /\
  (length (retired d) < length (retired d'))%nat.
Proof.
  unfold follow_execution_path. intros H. minv_fetch.
  apply follow_execution_path_loop_stops in H. exact H.
Qed.


(** *** Packets, taken apart *)

Lemma te_support_loop_inv fuel : forall previous_address d d',
  te_support_loop fuel previous_address d = Ret (tt, d') ->
  pc d' = previous_address /\ keeps_flags d d' /\
  (length (retired d) < length (retired d'))%nat.
Proof.
  induction fuel as [|fuel IH]; intros pa d d' H; cbn [te_support_loop] in H.
  - discriminate H.
  - apply bind_inv in H as ([] & d1 & Hn & H).
    pose proof (next_pc_keeps_flags _ _ _ _ Hn) as Hf.
    apply next_pc_inv in Hn as ((i1 & Hr & _) & _).
    apply bind_inv in H as (d2 & d2' & E & H). cbv [get] in E.
    injection E as <- <-.
    destruct (pc d1 =? pa) eqn:Epc.
    + cbv [ret] in H. injection H as <-. apply Z.eqb_eq in Epc.
      split; [exact Epc|]. split; [exact Hf|].
      rewrite Hr, length_app. cbn. lia.
    + apply IH in H as (H1 & H2 & H3). split; [exact H1|].
      split; [etransitivity; eauto|].
      rewrite Hr, length_app in H3. cbn in H3. lia.
Qed.

Lemma te_inst_update_inv te_inst d d' :
  te_inst_update te_inst d = Ret (tt, d') ->
  start_of_trace d = false /\ start_of_trace d' = false /\
  pc d' = pc d /\ retired d' = retired d /\
  inferred_address d' = inferred_address d /\
  (te_inst.format te_inst = 2 \/ te_inst.branches te_inst ≠ 0 ->
   stop_at_last_branch d' = false /\
   address d' = if full_address te_support then shifted_address te_inst
                else wrap64 (address d + shifted_address te_inst)) /\
  (te_inst.format te_inst ≠ 2 -> te_inst.branches te_inst = 0 ->
   address d' = address d /\
   (te_inst.format te_inst = 1 -> stop_at_last_branch d' = true)).
Proof.
  unfold te_inst_update, shl32. intros H. minv; proj_simpl.
  all: repeat match goal with
       | H : _ || _ = true |- _ => apply orb_true_iff in H
       | H : _ || _ = false |- _ => apply orb_false_iff in H as [? ?]
       | H : negb _ = true |- _ => apply negb_true_iff in H
       | H : negb _ = false |- _ => apply negb_false_iff in H
       | H : (_ =? _) = true |- _ => apply Z.eqb_eq in H
       | H : (_ =? _) = false |- _ => apply Z.eqb_neq in H
       end.
  all: repeat match goal with
       | |- _ /\ _ => split
       | |- _ -> _ => intros ?
       end; try reflexivity; try assumption; try lia; try congruence.
  all: try (exfalso; intuition (first [lia | congruence])).
Qed.

Lemma te_inst_format3_update_inv te_inst d d' :
  te_inst_format3_update te_inst d = Ret (tt, d') ->
  exists i,
    rv.pc (insn.decode i) = shifted_address te_inst /\
    (cache_ok d -> coherent i /\ cache_ok d') /\
    pc d' = pc d /\ last_pc d' = last_pc d /\ retired d' = retired d /\
    instruction_count d' = instruction_count d /\
    call_counter d' = call_counter d /\ return_stack d' = return_stack d /\
    address d' = shifted_address te_inst /\ inferred_address d' = false /\
    start_of_trace d' = start_of_trace d /\
    stop_at_last_branch d' = stop_at_last_branch d /\
    (te_inst.subformat te_inst = 1 \/ start_of_trace d = true ->
     branches d' = (if is_branch i then 1 else 0) /\
     branch_map d' = (if is_branch i then Z.b2z (te_inst.branch te_inst) else 0)) /\
    (te_inst.subformat te_inst ≠ 1 -> start_of_trace d = false ->
     branches d' = branches d + (if is_branch i then 1 else 0)).
Proof.
  unfold te_inst_format3_update, shl32. intros H. minv_calls; proj_simpl.
  all: match goal with
       | H : get_instr _ _ _ = _ |- _ => idtac
       | Hi : is_branch ?i = _ |- _ => exists i; rewrite Hi
       end.
  all: unfold keeps_cache_ok, cache_ok in *; proj_simpl.
  all: repeat match goal with
       | H : _ || _ = true |- _ => apply orb_true_iff in H
       | H : _ || _ = false |- _ => apply orb_false_iff in H as [? ?]
       | H : _ && _ = true |- _ => apply andb_true_iff in H as [? ?]
       | H : (_ =? _) = true |- _ => apply Z.eqb_eq in H
       | H : (_ =? _) = false |- _ => apply Z.eqb_neq in H
       | H : (_ <=? _) = true |- _ => apply Z.leb_le in H
       | H : (_ <? _) = true |- _ => apply Z.ltb_lt in H
       end.
  all: (split; [apply Hpc; cbn; unfold SENTINEL_BAD_ADDRESS in *; lia|]).
  all: (split; [intros Hc; apply (Hco Hc coherent_sentinel)|]).
  all: repeat match goal with
       | |- _ /\ _ => split
       | |- _ -> _ => intros ?
       end; try reflexivity; try assumption; try lia; try congruence.
  all: destruct (te_inst.branch te_inst); reflexivity.
Qed.


Lemma coherent_at i a :
  coherent i -> rv.pc (insn.decode i) = a ->
  a ≠ 0 -> a ≠ SENTINEL_BAD_ADDRESS -> i = insn_at a.
Proof. intros Hi <- H0 HS. now apply Hi. Qed.

(** *** The states the decoder gets into *)

(** X2. Whatever packets the decoder is handed, its decoded cache stays
    coherent: a slot that carries an address other than 0 and the sentinel
    holds the instruction the host has at that address. *)
Theorem decoded_cache_stays_coherent d s :
  reached d ->
  rv.pc (insn.decode (decoded_cache d s)) ≠ 0 ->
  rv.pc (insn.decode (decoded_cache d s)) ≠ SENTINEL_BAD_ADDRESS ->
  decoded_cache d s = insn_at (rv.pc (insn.decode (decoded_cache d s))).
Proof. intros H. exact (reached_cache_ok d H s). Qed.

(** X3. The retirements the decoder has disseminated form one path: the
    first leaves the sentinel, each of the others leaves the address the
    one before it reached, none stays where it is or reaches the sentinel,
    and the last has reached the current pc; [instruction_count] is their
    number modulo 2^64, and the pc is the sentinel exactly as long as
    nothing has been retired. *)
Theorem retirements_form_one_path d :
  reached d ->
  chained SENTINEL_BAD_ADDRESS (retired d) /\
  trace_end SENTINEL_BAD_ADDRESS (retired d) = pc d /\
  instruction_count d = wrap64 (Z.of_nat (length (retired d))) /\
  (pc d = SENTINEL_BAD_ADDRESS <-> retired d = []).
Proof.
  intros H. apply reached_walked in H as (rs & Hr & Hch & Hend & Hic & _).
  cbn in Hr, Hch, Hend, Hic. subst rs.
  split; [exact Hch|]. split; [exact Hend|]. split; [apply Hic; lia|].
  rewrite <- Hend, (trace_end_sentinel _ _ Hch). tauto.
Qed.

(** X4. Every retirement carries the decoded record of the address it
    reaches, and unless that address is 0 the record is the instruction
    the host has there, however the decoded cache was used on the way. *)
Theorem retirements_carry_the_instruction d :
  reached d ->
  Forall (fun r => rv.pc (insn.decode (new_instr r)) = new_pc r /\
                   (new_pc r ≠ 0 -> new_instr r = insn_at (new_pc r)))
    (retired d).
Proof.
  intros H. apply reached_walked in H as (rs & Hr & Hch & _ & _ & _ & _ & Hc).
  cbn in Hr, Hch. subst rs.
  destruct Hc as [_ Hc]; [intros s; apply coherent_zeroed|].
  apply chained_new_pc in Hch.
  pose proof (conj Hc Hch) as Hf. rewrite <- Forall_and in Hf.
  eapply Forall_impl; [exact Hf|]. cbv beta. intros r [[Hpc Hco] HS].
  split; [exact Hpc|]. intros H0. now apply coherent_at.
Qed.

(** X5. The return stack stays within its bounds: [call_counter] is never
    above [1 << (call_counter_width + 2)], and the array keeps its
    [TE_MAX_CALL_DEPTH] elements. *)
Theorem return_stack_stays_in_bounds d :
  reached d ->
  0 <= call_counter d <= call_counter_max /\
  length (return_stack d) = Z.to_nat TE_MAX_CALL_DEPTH.
Proof.
  intros H. apply reached_walked in H as (rs & _ & _ & _ & _ & Hl & Hcc & _).
  cbn in Hl, Hcc. rewrite length_replicate in Hl.
  pose proof call_counter_max_bound. split; [apply Hcc; lia | exact Hl].
Qed.

(** *** One step, one walk *)

(** X6. Whenever [next_pc] returns it has retired exactly one instruction:
    the retirement leads from the pc it found to the new pc and carries
    the decoded record of the new pc, the new pc differs from the old one,
    neither is the sentinel, [last_pc] is the old pc, [instruction_count]
    (which was not 0) has grown by one, and the return stack has kept its
    length and its bounds. *)
Theorem next_pc_retires_one_instruction address d d' :
  next_pc address d = Ret (tt, d') ->
  (exists i,
     retired d' = retired d ++ [Build_retirement (pc d) (pc d') i] /\
     rv.pc (insn.decode i) = pc d' /\ (cache_ok d -> coherent i)) /\
  last_pc d' = pc d /\ pc d' ≠ pc d /\
  pc d' ≠ SENTINEL_BAD_ADDRESS /\ pc d ≠ SENTINEL_BAD_ADDRESS /\
  instruction_count d ≠ 0 /\
  instruction_count d' = wrap64 (instruction_count d + 1) /\
  length (return_stack d') = length (return_stack d) /\
  (0 <= call_counter d <= call_counter_max ->
   0 <= call_counter d' <= call_counter_max).
Proof. apply next_pc_inv. Qed.

(** X7. Whenever [follow_execution_path] returns, the pc is the address
    it was asked to reach, or [stop_at_last_branch] was set and the walk
    stopped at the final branch: that flag is clear and one branch bit is
    left.  [inferred_address] is set on return only at the address asked
    for, for a packet that is not of format 3 and whose [updiscon] bit is
    the most significant bit of its address.  The walk has retired at least
    one instruction, along a path from the old pc to the new one, it has
    consumed branch bits only, and at most one is left. *)
Theorem follow_execution_path_stops_at_the_address fuel address te_inst d d' :
  follow_execution_path fuel address te_inst d = Ret (tt, d') ->
  (pc d' = address \/
   stop_at_last_branch d = true /\ stop_at_last_branch d' = false /\
   branches d' = 1 /\ inferred_address d' = false) /\
  (inferred_address d' = true ->
   pc d' = address /\ te_inst.format te_inst ≠ 3 /\
   te_inst.updiscon te_inst = MSB (te_inst.address te_inst)) /\
  (exists rs,
     rs ≠ [] /\ retired d' = retired d ++ rs /\
     chained (pc d) rs /\ trace_end (pc d) rs = pc d') /\
  branches d' <= branches d /\ branches d' <= 1.
Proof.
  intros H.
  pose proof (follow_execution_path_returns _ _ _ _ _ H) as H1.
  destruct (follow_execution_path_drains _ _ _ _ _ _ H) as [Hd _].
  destruct (follow_execution_path_walked _ _ _ _ _ _ H)
    as (rs & Hr & Hch & Hend & _).
  apply follow_execution_path_stops in H as (Hs & Hi & Hl).
  split; [tauto|]. split; [exact Hi|]. split; [|lia].
  exists rs. split; [|auto].
  intros ->. rewrite Hr, app_nil_r in Hl. lia.
Qed.


End decoder.


(** ** The properties on the program of the examples *)

(** C1. [pop_return_stack] misses the link that was pushed last: after the
    push for the call at [0x4000] the stack holds one link, [0x4004], at
    index 0, and the pop that follows reads index 1 and returns 0. *)
Theorem pop_return_stack_misses_pushed_link :
  exists d1 d2,
    push_return_stack demo.host 0x4000
      (demo.walking 0x4040 0x4000 0x4040 0 0 false false) = Ret (tt, d1) /\
    call_counter d1 = 1 /\
    return_stack d1 !! 0%nat = Some 0x4004 /\
    pop_return_stack d1 = Ret (0, d2) /\
    call_counter d2 = 0.
Proof.
  eexists _, _. split; [vm_compute; reflexivity|].
  split; [reflexivity|]. split; [reflexivity|].
  split; [vm_compute; reflexivity|]. reflexivity.
Qed.

(** The same through [next_pc], with the return stack in use: the call at
    [0x4000] pushes [0x4004], and the [jalr x0,0(x1)] at [0x4044] then takes
    the walk to 0, the never-written element above that link. *)
Example implicit_return_misses_the_link :
  exists d3,
    (next_pc demo.host_implicit_return 0 ;;
     next_pc demo.host_implicit_return 0 ;;
     next_pc demo.host_implicit_return 0)
      (demo.walking 0x4000 0x3ffc 0x5000 0 0 false false) = Ret (tt, d3) /\
    last_pc d3 = 0x4044 /\ pc d3 = 0 /\
    return_stack d3 !! 0%nat = Some 0x4004 /\ call_counter d3 = 0.
Proof.
  eexists. split; [vm_compute; reflexivity|]. repeat split.
Qed.

Lemma next_pc_applies_one_rule_witness :
  cache_ok demo.host (demo.walking 0x4000 0x3ffc 0x4040 0 0 false false) /\
  step_defined demo.host 0 (demo.walking 0x4000 0x3ffc 0x4040 0 0 false false) /\
  exists d',
    next_pc demo.host 0 (demo.walking 0x4000 0x3ffc 0x4040 0 0 false false)
      = Ret (tt, d') /\
    pc d' = 0x4040 /\
    stack_after_step demo.host
      (demo.walking 0x4000 0x3ffc 0x4040 0 0 false false)
      (return_stack d') (call_counter d') /\
    last_pc d' = 0x4000 /\
    retired d' = [Build_retirement 0x4000 (pc d') (insn_at demo.host (pc d'))].
Proof.
  assert (Hc : cache_ok demo.host (demo.walking 0x4000 0x3ffc 0x4040 0 0 false false))
    by (apply cache_ok_zeroed; reflexivity).
  assert (Hd : step_defined demo.host 0
                 (demo.walking 0x4000 0x3ffc 0x4040 0 0 false false)).
  { repeat split; try (vm_compute; congruence). }
  split; [exact Hc|]. split; [exact Hd|].
  exact (next_pc_applies_one_rule demo.host 0 _ Hc Hd).
Defined.

(** The last turn of the walk that the packets [demo.sync 0x1800] and then
    [demo.branch_packet 0 0 0] (31 branches, [stop_at_last_branch]) start in
    the loop at [0x3000]: the step ends at the reported address with one
    branch bit pending at a branch, after a [jal], and with [updiscon] equal
    to the most significant bit of the packet's address; the walk returns
    because the last branch is reached, and [inferred_address] stays clear. *)
Lemma follow_execution_path_ambiguous_match_counterexample :
  exists d1 d2,
    next_pc demo.host 0x3000 (demo.walking 0x3008 0x3000 0x3000 1 0 true false)
      = Ret (tt, d1) /\
    te_inst.format (demo.branch_packet 0 0 0) ≠ 3 /\
    pc d1 = 0x3000 /\
    te_inst.updiscon (demo.branch_packet 0 0 0)
      = MSB (te_inst.address (demo.branch_packet 0 0 0)) /\
    branches d1 = (if is_branch (insn_at demo.host (pc d1)) then 1 else 0) /\
    is_uninferrable_discon (insn_at demo.host (last_pc d1)) = false /\
    follow_execution_path demo.host 1 0x3000 (demo.branch_packet 0 0 0)
      (demo.walking 0x3008 0x3000 0x3000 1 0 true false) = Ret (tt, d2) /\
    inferred_address d2 = false.
Proof.
  eexists _, _. split; [vm_compute; reflexivity|].
  split; [discriminate|]. split; [reflexivity|]. split; [reflexivity|].
  split; [reflexivity|]. split; [reflexivity|].
  split; [vm_compute; reflexivity|]. reflexivity.
Qed.

(** The same walk from the opened decoder, packet by packet: 62 turns, and
    the state it returns in. *)
Example walk_to_the_last_branch :
  exists d1 d2,
    te_process_te_inst demo.host 1 (demo.sync 0x1800 false)
      (te_open_trace_decoder demo.host) = Ret (tt, d1) /\
    te_process_te_inst demo.host 62 (demo.branch_packet 0 0 0) d1 = Ret (tt, d2) /\
    pc d2 = 0x3000 /\ address d2 = 0x3000 /\ last_pc d2 = 0x3008 /\
    branches d2 = 1 /\ inferred_address d2 = false /\
    length (retired d2) = 63%nat.
Proof.
  eexists _, _. split; [vm_compute; reflexivity|].
  split; [vm_compute; reflexivity|]. repeat split.
Qed.

Lemma follow_execution_path_ambiguous_match_witness :
  exists d1 d2,
    next_pc demo.host 0x1004 (demo.walking 0x1000 0x0ffc 0x1004 1 0 false false)
      = Ret (tt, d1) /\
    follow_execution_path_loop demo.host 1 0x1004 (demo.branch_packet 1 0 2)
      0x1000 (insn_at demo.host 0x1000) sentinel_instr
      (demo.walking 0x1000 0x0ffc 0x1004 1 0 false false) = Ret (tt, d2) /\
    inferred_address d2 = true /\ pc d2 = pc d1.
Proof.
  assert (Hnext : exists d1,
    next_pc demo.host 0x1004 (demo.walking 0x1000 0x0ffc 0x1004 1 0 false false)
      = Ret (tt, d1)) by (eexists; vm_compute; reflexivity).
  destruct Hnext as [d1 Hnext]. exists d1.
  pose proof Hnext as Hd1. vm_compute in Hd1. injection Hd1 as Hd1.
  destruct (proj1 (follow_execution_path_ambiguous_match demo.host)
              0%nat 0x1004 (demo.branch_packet 1 0 2) 0x1000
              (insn_at demo.host 0x1000) sentinel_instr
              (demo.walking 0x1000 0x0ffc 0x1004 1 0 false false) d1)
    as (d2 & Hrun & Hinf & Hpc).
  - apply cache_ok_zeroed. reflexivity.
  - apply coherent_insn_at.
  - apply coherent_sentinel.
  - reflexivity.
  - reflexivity.
  - exact Hnext.
  - rewrite <- Hd1. reflexivity.
  - rewrite <- Hd1. reflexivity.
  - discriminate.
  - rewrite <- Hd1. reflexivity.
  - reflexivity.
  - rewrite <- Hd1. reflexivity.
  - rewrite <- Hd1. reflexivity.
  - rewrite <- Hd1. intros (_ & _ & H). discriminate H.
  - exists d2. auto.
Defined.

Lemma is_taken_branch_consumes_one_bit_witness :
  is_branch (insn_at demo.host 0x1004) = true /\
  branches (demo.walking 0x1004 0x1000 0x100c 2 2 false false) ≠ 0 /\
  is_taken_branch (insn_at demo.host 0x1004)
    (demo.walking 0x1004 0x1000 0x100c 2 2 false false)
  = Ret (true,
         with_branch_map 1
           (with_branches 1 (demo.walking 0x1004 0x1000 0x100c 2 2 false false))).
Proof.
  split; [reflexivity|]. split; [discriminate|].
  apply (proj1 (is_taken_branch_consumes_one_bit
                  (demo.walking 0x1004 0x1000 0x100c 2 2 false false)
                  (insn_at demo.host 0x1004))).
  - reflexivity.
  - discriminate.
Defined.

Lemma push_return_stack_fifo_witness :
  cache_ok demo.host demo.fresh /\
  0 <= call_counter_width (host.discovery_response demo.host) <= 7 /\
  2 ^ (call_counter_width (host.discovery_response demo.host) + 2)
    <= host.TE_MAX_CALL_DEPTH demo.host /\
  Z.of_nat (length (return_stack demo.fresh)) = host.TE_MAX_CALL_DEPTH demo.host /\
  0 <= call_counter demo.fresh
    <= 2 ^ (call_counter_width (host.discovery_response demo.host) + 2) /\
  (forall calls,
     Forall (fun a => fetchable demo.host a = true) calls ->
     exists d',
       push_all demo.host calls demo.fresh = Ret (tt, d') /\
       stack_contents d' =
         drop (length calls - 512) (map (link_of demo.host) calls) /\
       call_counter d' = Z.min (Z.of_nat (length calls)) 512).
Proof.
  assert (Hc : cache_ok demo.host demo.fresh) by (apply cache_ok_zeroed; reflexivity).
  assert (Hw : 0 <= call_counter_width (host.discovery_response demo.host) <= 7)
    by (change (0 <= 7 <= 7); lia).
  assert (Hm : 2 ^ (call_counter_width (host.discovery_response demo.host) + 2)
               <= host.TE_MAX_CALL_DEPTH demo.host) by (change (512 <= 512); lia).
  assert (Hl : Z.of_nat (length (return_stack demo.fresh))
               = host.TE_MAX_CALL_DEPTH demo.host) by reflexivity.
  assert (Hcc : 0 <= call_counter demo.fresh
                <= 2 ^ (call_counter_width (host.discovery_response demo.host) + 2))
    by (change (0 <= 0 <= 512); lia).
  repeat (split; [assumption|]).
  intros calls Hf.
  exact (proj2 (push_return_stack_fifo demo.host demo.fresh Hc Hw Hm Hl Hcc)
           calls eq_refl Hf).
Defined.

Lemma sequential_jump_classification_and_target_witness :
  cache_ok demo.host demo.fresh /\
  fetchable demo.host 0x2004 = true /\ fetchable demo.host 0x2000 = true /\
  (exists d', is_sequential_jump demo.host (insn_at demo.host 0x2004) 0x2000
                demo.fresh = Ret (true, d')) /\
  (exists d', sequential_jump_target demo.host 0x2004 0x2000 demo.fresh
              = Ret (0x2100, d')).
Proof.
  assert (Hc : cache_ok demo.host demo.fresh) by (apply cache_ok_zeroed; reflexivity).
  split; [exact Hc|]. split; [reflexivity|]. split; [reflexivity|].
  destruct (sequential_jump_classification_and_target demo.host demo.fresh
              (insn_at demo.host 0x2004) 0x2004 0x2000 Hc eq_refl eq_refl)
    as [(b & d1 & Hrun & Hb) (target & d2 & Hrun2 & _ & Hlui)].
  split.
  - exists d1. rewrite Hrun. do 2 f_equal. apply Hb.
    split; [reflexivity|]. split; [right; left; reflexivity|reflexivity].
  - exists d2. rewrite Hrun2. do 2 f_equal. apply Hlui. left. reflexivity.
Defined.

Lemma te_inst_format1_dispatch_witness :
  te_inst.format (demo.branch_packet 1 0 6) = 1 /\
  start_of_trace (demo.walking 0x1000 0x1000 0x1000 0 0 false false) = false /\
  exists d1,
    te_inst_update demo.host (demo.branch_packet 1 0 6)
      (demo.walking 0x1000 0x1000 0x1000 0 0 false false) = Ret (tt, d1) /\
    stop_at_last_branch d1 = false /\ branch_map d1 = 0 /\ branches d1 = 1 /\
    te_process_te_inst demo.host 4 (demo.branch_packet 1 0 6)
      (demo.walking 0x1000 0x1000 0x1000 0 0 false false)
    = follow_execution_path demo.host 4 (address d1) (demo.branch_packet 1 0 6) d1.
Proof.
  split; [reflexivity|]. split; [reflexivity|].
  apply (te_inst_format1_dispatch demo.host 4 (demo.branch_packet 1 0 6)
           (demo.walking 0x1000 0x1000 0x1000 0 0 false false));
    cbn; try reflexivity; lia.
Defined.



Lemma next_pc_unexpected_discontinuity_witness :
  cache_ok demo.host (demo.walking 0x100c 0x1008 0x2000 1 0 true false) /\
  is_uninferrable_discon (insn_at demo.host 0x100c) = true /\
  stop_at_last_branch (demo.walking 0x100c 0x1008 0x2000 1 0 true false) = true /\
  next_pc demo.host 0x2000 (demo.walking 0x100c 0x1008 0x2000 1 0 true false)
  = Fail (exited "unexpected uninferrable discontinuity"%string).
Proof.
  assert (Hc : cache_ok demo.host (demo.walking 0x100c 0x1008 0x2000 1 0 true false))
    by (apply cache_ok_zeroed; reflexivity).
  split; [exact Hc|]. split; [reflexivity|]. split; [reflexivity|].
  apply (next_pc_unexpected_discontinuity demo.host 0x2000
           (demo.walking 0x100c 0x1008 0x2000 1 0 true false) Hc);
    reflexivity.
Defined.

Lemma te_process_te_support_other_type_witness :
  support_type (demo.support 1 QUAL_STATUS_ENDED_NTR) ≠ 0 /\
  te_process_te_support demo.host 3 (demo.support 1 QUAL_STATUS_ENDED_NTR)
    (demo.walking 0x1000 0x0ffc 0x1000 0 0 false true)
  = Ret (tt, demo.walking 0x1000 0x0ffc 0x1000 0 0 false true).
Proof.
  split; [discriminate|].
  apply (te_process_te_support_other_type demo.host 3
           (demo.support 1 QUAL_STATUS_ENDED_NTR)
           (demo.walking 0x1000 0x0ffc 0x1000 0 0 false true)).
  discriminate.
Defined.
